(** * sandbox-game: texture atlas packing and the frame loop

    A shallow embedding of [TextureAtlas.planPacking] / [packCanvas]
    (Display/TextureAtlas.ts) and of [Game.start] / [Game.doMainLoop]
    (Game.ts), followed by the properties the design document states
    about them.

    Pixel dimensions are natural numbers ([N]): the DOM declares
    [HTMLImageElement.width] and [height] as [unsigned long].  Every sum
    the packer computes stays far below 2^53, so the arithmetic of JS
    numbers is exact on these values. *)

From Stdlib Require Import String Arith NArith Bool List Lia.
Import ListNotations.
Local Open Scope N_scope.

(* ================================================================== *)
(** ** Completion records: a call either returns or throws            *)
(* ================================================================== *)

Inductive Completion (E A : Type) : Type :=
| Return (a : A)
| Throw (e : E).
Arguments Return {E A} a.
Arguments Throw {E A} e.

(** [new Error(message)] *)
Inductive JsError : Type :=
| Error (message : string).

(* ================================================================== *)
(** ** Data model of Display/TextureAtlas.ts                          *)
(* ================================================================== *)

(** The two properties of an image the packer reads. *)
Module HTMLImageElement.
Record t : Type := { width : N; height : N }.
End HTMLImageElement.

(** [interface TextureAtlasRecord] *)
Module TextureAtlasRecord.
Record t : Type :=
  { top_left_x : N; top_left_y : N; width : N; height : N }.
End TextureAtlasRecord.

(** [interface TextureAtlasPlan] *)
Module TextureAtlasPlan.
Record t : Type :=
  { width : N; height : N; records : list TextureAtlasRecord.t }.
End TextureAtlasPlan.

(** The canvas built by [packCanvas]: its two size attributes and, in
    call order, the [drawImage(image, dx, dy)] calls made on its 2d
    context. *)
Module HTMLCanvasElement.
Record t : Type :=
  { width : N; height : N;
    drawn : list (HTMLImageElement.t * N * N) }.
End HTMLCanvasElement.

(* ================================================================== *)
(** ** The part of the WebGL context [createTexture] touches          *)
(* ================================================================== *)

(** A texture object, named by its creation index in its context. *)
Definition WebGLTexture : Type := nat.

(** The error a GL call records instead of throwing. *)
Inductive GLerror : Type :=
| INVALID_OPERATION.

Module WebGL2RenderingContext.

(** [contextLost]: [createTexture()] yields [null].  [created]: the
    number of texture objects made so far.  [TEXTURE_2D_binding]: the
    texture bound to [gl.TEXTURE_2D], if any.  [uploads]: the
    [texImage2D] calls that reached a texture, with their source.
    [errors]: the GL errors recorded. *)
Record t : Type :=
  { contextLost : bool;
    created : nat;
    TEXTURE_2D_binding : option WebGLTexture;
    uploads : list (WebGLTexture * HTMLCanvasElement.t);
    errors : list GLerror }.

(** [gl.createTexture()] *)
Definition createTexture (gl : t) : t * option WebGLTexture :=
  if contextLost gl then (gl, None)
  else ({| contextLost := contextLost gl;
           created := S (created gl);
           TEXTURE_2D_binding := TEXTURE_2D_binding gl;
           uploads := uploads gl;
           errors := errors gl |}, Some (created gl)).

(** [gl.bindTexture(gl.TEXTURE_2D, texture)]; [undefined] and [null]
    bind no texture. *)
Definition bindTexture (gl : t) (texture : option WebGLTexture) : t :=
  {| contextLost := contextLost gl;
     created := created gl;
     TEXTURE_2D_binding := texture;
     uploads := uploads gl;
     errors := errors gl |}.

(** [gl.texImage2D(gl.TEXTURE_2D, 0, gl.RGBA, gl.RGBA,
    gl.UNSIGNED_BYTE, source)]: the source goes into the bound
    texture; with no texture bound the call records
    [INVALID_OPERATION] and uploads nothing. *)
Definition texImage2D (gl : t) (source : HTMLCanvasElement.t) : t :=
  match TEXTURE_2D_binding gl with
  | Some texture =>
      {| contextLost := contextLost gl;
         created := created gl;
         TEXTURE_2D_binding := TEXTURE_2D_binding gl;
         uploads := uploads gl ++ [(texture, source)];
         errors := errors gl |}
  | None =>
      {| contextLost := contextLost gl;
         created := created gl;
         TEXTURE_2D_binding := TEXTURE_2D_binding gl;
         uploads := uploads gl;
         errors := errors gl ++ [INVALID_OPERATION] |}
  end.

(** Every texture named in the context was created by it. *)
Definition wellFormed (gl : t) : Prop :=
  (forall texture source,
      In (texture, source) (uploads gl) -> (texture < created gl)%nat)
  /\ (forall texture,
         TEXTURE_2D_binding gl = Some texture -> (texture < created gl)%nat).

End WebGL2RenderingContext.

Module TextureAtlas.

(** [private static readonly MAX_DIMENSION = 4096] *)
Definition MAX_DIMENSION : N := 4096.

Definition width_exceeded : JsError :=
  Error "Maximum texture atlas width exceeded.".
Definition height_exceeded : JsError :=
  Error "Maximum texture atlas height exceeded.".
Definition no_canvas_context : JsError :=
  Error "Failed to get canvas context.".
(** Reading a property of [undefined]. *)
Definition type_error : JsError :=
  Error "TypeError".

(** The mutable locals of [planPacking]: [plan], [current_x] and
    [current_row_height]. *)
Record Locals : Type :=
  { plan : TextureAtlasPlan.t;
    current_x : N;
    current_row_height : N }.

(** State on entry to the [for] loop. *)
Definition initial : Locals :=
  {| plan := {| TextureAtlasPlan.width := 0;
                TextureAtlasPlan.height := 0;
                TextureAtlasPlan.records := [] |};
     current_x := 0;
     current_row_height := 0 |}.

(** The test of the second [if]: the image would cross the right
    edge of the atlas. *)
Definition wraps (st : Locals) (image : HTMLImageElement.t) : bool :=
  MAX_DIMENSION <? current_x st + HTMLImageElement.width image.

(** "Would wrap end of texture, advance to next row." *)
Definition advanceRow (st : Locals) (image : HTMLImageElement.t) : Locals :=
  if wraps st image then
    {| plan :=
         {| TextureAtlasPlan.width := TextureAtlasPlan.width (plan st);
            TextureAtlasPlan.height :=
              TextureAtlasPlan.height (plan st) + current_row_height st;
            TextureAtlasPlan.records := TextureAtlasPlan.records (plan st) |};
       current_x := 0;
       current_row_height := 0 |}
  else st.

(** "Insert new image at the current position" and "Advance current
    position without wrapping." *)
Definition place (st : Locals) (image : HTMLImageElement.t) : Locals :=
  let record :=
    {| TextureAtlasRecord.top_left_x := current_x st;
       TextureAtlasRecord.top_left_y := TextureAtlasPlan.height (plan st);
       TextureAtlasRecord.width := HTMLImageElement.width image;
       TextureAtlasRecord.height := HTMLImageElement.height image |} in
  let records' := TextureAtlasPlan.records (plan st) ++ [record] in
  let current_x' := current_x st + HTMLImageElement.width image in
  let width' :=
    if TextureAtlasPlan.width (plan st) <? current_x'
    then current_x' else TextureAtlasPlan.width (plan st) in
  let current_row_height' :=
    if current_row_height st <? HTMLImageElement.height image
    then HTMLImageElement.height image else current_row_height st in
  {| plan := {| TextureAtlasPlan.width := width';
                TextureAtlasPlan.height := TextureAtlasPlan.height (plan st);
                TextureAtlasPlan.records := records' |};
     current_x := current_x';
     current_row_height := current_row_height' |}.

(** One iteration of the [for (let image of images)] loop. *)
Definition packImage (st : Locals) (image : HTMLImageElement.t)
  : Completion JsError Locals :=
  if MAX_DIMENSION <? HTMLImageElement.width image then
    Throw width_exceeded
  else
    let st1 := advanceRow st image in
    if MAX_DIMENSION
         <? TextureAtlasPlan.height (plan st1) + HTMLImageElement.height image
    then Throw height_exceeded
    else Return (place st1 image).

(** The whole loop, from given locals. *)
Fixpoint packLoop (st : Locals) (images : list HTMLImageElement.t)
  : Completion JsError Locals :=
  match images with
  | [] => Return st
  | image :: rest =>
      match packImage st image with
      | Return st' => packLoop st' rest
      | Throw e => Throw e
      end
  end.

(** [private planPacking(images): TextureAtlasPlan] *)
Definition planPacking (images : list HTMLImageElement.t)
  : Completion JsError TextureAtlasPlan.t :=
  match packLoop initial images with
  | Return st => Return (plan st)
  | Throw e => Throw e
  end.

(** The [for (let i = 0; i < images.length; ++i)] loop of
    [packCanvas]; [i] is the loop counter, [images] the images from
    index [i] on.  [records[i]] past the end of the array is
    [undefined], whose property read throws. *)
Fixpoint drawLoop (records : list TextureAtlasRecord.t) (i : nat)
    (images : list HTMLImageElement.t)
    (canvas : HTMLCanvasElement.t)
  : Completion JsError HTMLCanvasElement.t :=
  match images with
  | [] => Return canvas
  | image :: rest =>
      match nth_error records i with
      | None => Throw type_error
      | Some r =>
          drawLoop records (S i) rest
            {| HTMLCanvasElement.width := HTMLCanvasElement.width canvas;
               HTMLCanvasElement.height := HTMLCanvasElement.height canvas;
               HTMLCanvasElement.drawn :=
                 HTMLCanvasElement.drawn canvas
                 ++ [(image, TextureAtlasRecord.top_left_x r,
                             TextureAtlasRecord.top_left_y r)] |}
      end
  end.

(** [private packCanvas(images): HTMLCanvasElement], reading
    [this._plan].  [has_context] tells whether
    [atlasCanvas.getContext('2d')] yields a context or [null]. *)
Definition packCanvas (_plan : TextureAtlasPlan.t) (has_context : bool)
    (images : list HTMLImageElement.t)
  : Completion JsError HTMLCanvasElement.t :=
  let atlasCanvas :=
    {| HTMLCanvasElement.width := TextureAtlasPlan.width _plan;
       HTMLCanvasElement.height := TextureAtlasPlan.height _plan;
       HTMLCanvasElement.drawn := [] |} in
  if has_context then
    drawLoop (TextureAtlasPlan.records _plan) 0 images atlasCanvas
  else Throw no_canvas_context.

(** *** Vocabulary of the design document

    The definitions below do not occur in the source; they spell out
    the words the stated properties use, so that the code can be
    compared with them. *)

(** Tallest image of a row. *)
Definition rowHeight (row : list HTMLImageElement.t) : N :=
  fold_right N.max 0 (map HTMLImageElement.height row).

(** Shelf packing as the document describes it: images go left to
    right into the row in progress, and an image that would cross
    [MAX_DIMENSION] closes that row and opens the next one.  [x] is
    the filled width of the row in progress, [row] its images.  The
    result is the list of completed rows and the final row. *)
Fixpoint shelves (x : N) (row : list HTMLImageElement.t)
    (images : list HTMLImageElement.t)
  : list (list HTMLImageElement.t) * list HTMLImageElement.t :=
  match images with
  | [] => ([], row)
  | image :: rest =>
      if MAX_DIMENSION <? x + HTMLImageElement.width image then
        let (completed, final) :=
          shelves (HTMLImageElement.width image) [image] rest in
        (row :: completed, final)
      else
        shelves (x + HTMLImageElement.width image) (row ++ [image]) rest
  end.

Definition completedRows (images : list HTMLImageElement.t) :=
  fst (shelves 0 [] images).
Definition finalRow (images : list HTMLImageElement.t) :=
  snd (shelves 0 [] images).

Definition sumN (l : list N) : N := fold_right N.add 0 l.

(** Height of all the rows of [shelves x row images]. *)
Definition shelvesHeight (x : N) (row images : list HTMLImageElement.t) : N :=
  sumN (map rowHeight (fst (shelves x row images)))
  + rowHeight (snd (shelves x row images)).

(** Sum of the row heights of the completed rows. *)
Definition committedHeight (images : list HTMLImageElement.t) : N :=
  sumN (map rowHeight (completedRows images)).

(** Sum of the row heights of all rows, the final one included. *)
Definition totalPackedHeight (images : list HTMLImageElement.t) : N :=
  committedHeight images + rowHeight (finalRow images).

(** Right and bottom edge of a record's rectangle. *)
Definition right (r : TextureAtlasRecord.t) : N :=
  TextureAtlasRecord.top_left_x r + TextureAtlasRecord.width r.
Definition bottom (r : TextureAtlasRecord.t) : N :=
  TextureAtlasRecord.top_left_y r + TextureAtlasRecord.height r.

(** Two rectangles overlap when their half-open extents intersect on
    both axes. *)
Definition overlap (a b : TextureAtlasRecord.t) : bool :=
  (TextureAtlasRecord.top_left_x a <? right b)
  && (TextureAtlasRecord.top_left_x b <? right a)
  && (TextureAtlasRecord.top_left_y a <? bottom b)
  && (TextureAtlasRecord.top_left_y b <? bottom a).

(** Pixel [(px, py)] lies in the rectangle of [r]. *)
Definition covers (r : TextureAtlasRecord.t) (px py : N) : Prop :=
  TextureAtlasRecord.top_left_x r <= px < right r
  /\ TextureAtlasRecord.top_left_y r <= py < bottom r.

(** Largest right edge among the records, 0 for none. *)
Definition maxRight (records : list TextureAtlasRecord.t) : N :=
  fold_right N.max 0 (map right records).

(** The rectangle of [r] lies within the canvas. *)
Definition inside (r : TextureAtlasRecord.t) (c : HTMLCanvasElement.t) : Prop :=
  right r <= HTMLCanvasElement.width c
  /\ bottom r <= HTMLCanvasElement.height c.

(** A record carries the dimensions of its image. *)
Definition sameSize (image : HTMLImageElement.t) (r : TextureAtlasRecord.t)
  : Prop :=
  TextureAtlasRecord.width r = HTMLImageElement.width image
  /\ TextureAtlasRecord.height r = HTMLImageElement.height image.

Definition img (w h : N) : HTMLImageElement.t :=
  {| HTMLImageElement.width := w; HTMLImageElement.height := h |}.
Definition rec (x y w h : N) : TextureAtlasRecord.t :=
  {| TextureAtlasRecord.top_left_x := x; TextureAtlasRecord.top_left_y := y;
     TextureAtlasRecord.width := w; TextureAtlasRecord.height := h |}.

(** The example of the design document. *)
Definition exampleImages : list HTMLImageElement.t :=
  [img 100 50; img 100 50; img 4050 50].

(** *** The rest of [class TextureAtlas] *)

Definition texture_failed : JsError :=
  Error "Failed to create atlas texture.".

(** [private createTexture(gl, atlasCanvas): WebGLTexture].
    [this_texture] is the value of the field [this._texture] at the
    time of the call, [None] while the field is unassigned. *)
Definition createTexture (gl : WebGL2RenderingContext.t)
    (this_texture : option WebGLTexture) (atlasCanvas : HTMLCanvasElement.t)
  : WebGL2RenderingContext.t * Completion JsError WebGLTexture :=
  match WebGL2RenderingContext.createTexture gl with
  | (gl1, None) => (gl1, Throw texture_failed)
  | (gl1, Some texture) =>
      let gl2 := WebGL2RenderingContext.bindTexture gl1 this_texture in
      let gl3 := WebGL2RenderingContext.texImage2D gl2 atlasCanvas in
      (gl3, Return texture)
  end.

(** The two private fields of a constructed atlas; the getters [plan]
    and [texture] return them. *)
Record t : Type :=
  { _plan : TextureAtlasPlan.t;
    _texture : WebGLTexture }.

(** [public constructor(gl, images)].  [this._texture] is assigned
    only with the result of [createTexture], so it is unassigned while
    [createTexture] runs. *)
Definition constructor (gl : WebGL2RenderingContext.t) (has_context : bool)
    (images : list HTMLImageElement.t)
  : WebGL2RenderingContext.t * Completion JsError t :=
  match planPacking images with
  | Throw e => (gl, Throw e)
  | Return this_plan =>
      match packCanvas this_plan has_context images with
      | Throw e => (gl, Throw e)
      | Return atlasCanvas =>
          match createTexture gl None atlasCanvas with
          | (gl', Throw e) => (gl', Throw e)
          | (gl', Return texture) =>
              (gl', Return {| _plan := this_plan; _texture := texture |})
          end
      end
  end.

(** *** More vocabulary: where shelf packing puts the images *)

(** Filled width of a row. *)
Definition rowWidth (row : list HTMLImageElement.t) : N :=
  sumN (map HTMLImageElement.width row).

Definition maxN (l : list N) : N := fold_right N.max 0 l.

(** All the rows, the final one last. *)
Definition allRows (images : list HTMLImageElement.t)
  : list (list HTMLImageElement.t) :=
  completedRows images ++ [finalRow images].

(** The images of one row side by side from [x] on, tops at [y]. *)
Fixpoint layoutRow (y x : N) (row : list HTMLImageElement.t)
  : list TextureAtlasRecord.t :=
  match row with
  | [] => []
  | image :: rest =>
      rec x y (HTMLImageElement.width image) (HTMLImageElement.height image)
      :: layoutRow y (x + HTMLImageElement.width image) rest
  end.

(** The rows one below the other from [y] on, each as high as its
    tallest image. *)
Fixpoint layoutRows (y : N) (rows : list (list HTMLImageElement.t))
  : list TextureAtlasRecord.t :=
  match rows with
  | [] => []
  | row :: rest => layoutRow y 0 row ++ layoutRows (y + rowHeight row) rest
  end.

(** The [drawImage] call made for an image and its record. *)
Definition drawCall (pair : HTMLImageElement.t * TextureAtlasRecord.t)
  : HTMLImageElement.t * N * N :=
  (fst pair, TextureAtlasRecord.top_left_x (snd pair),
             TextureAtlasRecord.top_left_y (snd pair)).

(** A fresh context, and one that cannot make textures. *)
Definition freshContext : WebGL2RenderingContext.t :=
  {| WebGL2RenderingContext.contextLost := false;
     WebGL2RenderingContext.created := 0;
     WebGL2RenderingContext.TEXTURE_2D_binding := None;
     WebGL2RenderingContext.uploads := [];
     WebGL2RenderingContext.errors := [] |}.

End TextureAtlas.

(* ================================================================== *)
(** ** Game.ts: start-up and the frame loop                           *)
(* ================================================================== *)

(** The three managers are injected collaborators whose code is not
    part of Game.ts.  A method of a manager is any function of the
    managers' (shared, opaque) state [M] that ends by returning or by
    throwing a value of type [E]. *)
Definition Method (M E : Type) : Type := M -> M * Completion E unit.

Record DisplayManager (M E : Type) : Type :=
  { initialize : Method M E; doRender : Method M E }.
Record GameStateManager (M E : Type) : Type :=
  { doUpdateGameState : Method M E }.
Record InputManager (M E : Type) : Type :=
  { doInputProcessing : Method M E }.
Arguments initialize {M E} _.
Arguments doRender {M E} _.
Arguments doUpdateGameState {M E} _.
Arguments doInputProcessing {M E} _.

(** What [Game.ts] does that can be observed from outside, in order. *)
Inductive Event (E : Type) : Type :=
| RequestAnimationFrame      (* window.requestAnimationFrame(main) *)
| Initialize                 (* displayManager.initialize() entered *)
| DoInputProcessing          (* inputManager.doInputProcessing() entered *)
| DoUpdateGameState          (* gameStateManager.doUpdateGameState() entered *)
| DoRender                   (* displayManager.doRender() entered *)
| ConsoleError (e : E).      (* console.error(e) *)
Arguments RequestAnimationFrame {E}.
Arguments Initialize {E}.
Arguments DoInputProcessing {E}.
Arguments DoUpdateGameState {E}.
Arguments DoRender {E}.
Arguments ConsoleError {E} e.

(** The only function ever handed to [requestAnimationFrame] is the
    closure [main] of [doMainLoop]. *)
Inductive FrameRequestCallback : Type :=
| main_closure.

Module Game.

(** The fields of [class Game]. *)
Record t (M E : Type) : Type :=
  { displayManager : DisplayManager M E;
    gameStateManager : GameStateManager M E;
    inputManager : InputManager M E }.
Arguments displayManager {M E} _.
Arguments gameStateManager {M E} _.
Arguments inputManager {M E} _.

(** The world [Game.ts] runs in: the managers' state, the window's
    list of animation frame callbacks, and the events so far. *)
Record World (M E : Type) : Type :=
  { managers : M;
    callbacks : list FrameRequestCallback;
    trace : list (Event E) }.
Arguments managers {M E} _.
Arguments callbacks {M E} _.
Arguments trace {M E} _.

(** Statements of [Game.ts]: world transformers that return or
    throw. *)
Definition Prog (M E A : Type) : Type :=
  World M E -> World M E * Completion E A.

Section Statements.
Context {M E : Type}.

Definition ret {A} (a : A) : Prog M E A := fun w => (w, Return a).

Definition bind {A B} (p : Prog M E A) (k : A -> Prog M E B)
  : Prog M E B :=
  fun w =>
    match p w with
    | (w', Return a) => k a w'
    | (w', Throw e) => (w', Throw e)
    end.

(** [try { body } catch (e) { handler }] *)
Definition tryCatch {A} (body : Prog M E A) (handler : E -> Prog M E A)
  : Prog M E A :=
  fun w =>
    match body w with
    | (w', Return a) => (w', Return a)
    | (w', Throw e) => handler e w'
    end.

Definition emit (ev : Event E) (w : World M E) : World M E :=
  {| managers := managers w;
     callbacks := callbacks w;
     trace := trace w ++ [ev] |}.

(** A call of a manager method: the call is entered, then the
    method acts on the managers' state and returns or throws. *)
Definition invoke (ev : Event E) (m : Method M E) : Prog M E unit :=
  fun w =>
    let (h, outcome) := m (managers w) in
    ({| managers := h;
        callbacks := callbacks w;
        trace := trace w ++ [ev] |}, outcome).

(** [window.requestAnimationFrame(callback)] *)
Definition requestAnimationFrame (callback : FrameRequestCallback)
  : Prog M E unit :=
  fun w =>
    ({| managers := managers w;
        callbacks := callbacks w ++ [callback];
        trace := trace w ++ [RequestAnimationFrame] |}, Return tt).

(** [console.error(e)] *)
Definition consoleError (e : E) : Prog M E unit :=
  fun w => (emit (ConsoleError e) w, Return tt).

End Statements.

Notation "p ;; q" := (bind p (fun _ => q))
  (at level 61, right associativity).

Section Methods.
Context {M E : Type} (game : t M E).

(** [function main()] inside [doMainLoop]. *)
Definition main : Prog M E unit :=
  requestAnimationFrame main_closure ;;
  tryCatch
    (invoke DoInputProcessing (doInputProcessing (inputManager game)) ;;
     invoke DoUpdateGameState (doUpdateGameState (gameStateManager game)) ;;
     invoke DoRender (doRender (displayManager game)))
    (fun e => consoleError e).

(** [private doMainLoop()] *)
Definition doMainLoop : Prog M E unit := main.

(** [public start()] *)
Definition start : Prog M E unit :=
  tryCatch
    (invoke Initialize (initialize (displayManager game)))
    (fun e => consoleError e) ;;
  doMainLoop.

(** What a registered callback runs. *)
Definition runCallback (cb : FrameRequestCallback) : Prog M E unit :=
  match cb with
  | main_closure => main
  end.

(** The world on entry to the callbacks of a display refresh: the
    host has taken the list of animation frame callbacks. *)
Definition refreshed (w : World M E) : World M E :=
  {| managers := managers w; callbacks := []; trace := trace w |}.

(** The host at a display refresh: it takes the list of animation
    frame callbacks, empties it, and calls them in order; a
    callback that throws does not stop the others. *)
Definition animationFrame (w : World M E) : World M E :=
  fold_left (fun w' cb => fst (runCallback cb w'))
    (callbacks w) (refreshed w).

(** The world [start()] leaves when it reaches [this.doMainLoop()]:
    [initialize()] was entered and, when it threw, the value it
    threw was logged. *)
Definition initialised (w : World M E) : World M E :=
  match initialize (displayManager game) (managers w) with
  | (h, Return _) =>
      {| managers := h; callbacks := callbacks w;
         trace := trace w ++ [Initialize] |}
  | (h, Throw e) =>
      {| managers := h; callbacks := callbacks w;
         trace := (trace w ++ [Initialize]) ++ [ConsoleError e] |}
  end.

(** The world after [start()] and [n] display refreshes, that is
    after tick [n + 1]. *)
Definition afterTicks (n : nat) (w0 : World M E) : World M E :=
  Nat.iter n animationFrame (fst (start w0)).

(** The world on entry to the call of [main] that is tick
    [n + 1]: the first call is made by [start()] itself, the later
    ones by the host at a display refresh. *)
Definition tickEntry (n : nat) (w0 : World M E) : World M E :=
  match n with
  | O => initialised w0
  | S k => refreshed (afterTicks k w0)
  end.

End Methods.

(** *** A concrete set of managers

    The managers' state counts the ticks begun; display
    initialization fails and the state update of tick 3 fails. *)
Definition sampleGame : t nat string :=
  {| displayManager :=
       {| initialize := fun h => (h, Throw "WebGL2 is not supported"%string);
          doRender := fun h => (h, Return tt) |};
     gameStateManager :=
       {| doUpdateGameState := fun h =>
            if Nat.eqb h 3 then (h, Throw "bad state"%string)
            else (h, Return tt) |};
     inputManager :=
       {| doInputProcessing := fun h => (S h, Return tt) |} |}.

Definition sampleWorld : World nat string :=
  {| managers := 0%nat; callbacks := []; trace := [] |}.

(** Managers none of whose methods throws. *)
Definition quietGame : t nat string :=
  {| displayManager :=
       {| initialize := fun h => (h, Return tt);
          doRender := fun h => (h, Return tt) |};
     gameStateManager :=
       {| doUpdateGameState := fun h => (h, Return tt) |};
     inputManager :=
       {| doInputProcessing := fun h => (S h, Return tt) |} |}.

(** *** Counting events *)

Section Counting.
Context {E : Type}.

Definition isRequestAnimationFrame (ev : Event E) : bool :=
  match ev with RequestAnimationFrame => true | _ => false end.
Definition isInitialize (ev : Event E) : bool :=
  match ev with Initialize => true | _ => false end.
Definition isDoInputProcessing (ev : Event E) : bool :=
  match ev with DoInputProcessing => true | _ => false end.
Definition isDoUpdateGameState (ev : Event E) : bool :=
  match ev with DoUpdateGameState => true | _ => false end.
Definition isDoRender (ev : Event E) : bool :=
  match ev with DoRender => true | _ => false end.
Definition isConsoleError (ev : Event E) : bool :=
  match ev with ConsoleError _ => true | _ => false end.

(** Number of events of one kind. *)
Definition count (kind : Event E -> bool) (events : list (Event E)) : nat :=
  length (filter kind events).

End Counting.

End Game.

(* ================================================================== *)
(** ** Game.ts, the earlier revision: rendering only, no try/catch     *)
(* ================================================================== *)

Module Game0.

(** The field of the earlier [class Game]. *)
Record t (M E : Type) : Type :=
  { displayManager : DisplayManager M E }.
Arguments displayManager {M E} _.

Section Methods.
Context {M E : Type} (game : t M E).

(** [function main()] inside [start()]. *)
Definition main : Game.Prog M E unit :=
  Game.bind (Game.requestAnimationFrame main_closure)
    (fun _ => Game.invoke DoRender (doRender (displayManager game))).

(** [public start()] *)
Definition start : Game.Prog M E unit := main.

Definition runCallback (cb : FrameRequestCallback) : Game.Prog M E unit :=
  match cb with
  | main_closure => main
  end.

(** The host at a display refresh, as for the later revision. *)
Definition animationFrame (w : Game.World M E) : Game.World M E :=
  fold_left (fun w' cb => fst (runCallback cb w'))
    (Game.callbacks w) (Game.refreshed w).

End Methods.

(** A display manager whose [doRender] always throws. *)
Definition failingGame : t nat string :=
  {| displayManager :=
       {| initialize := fun h => (h, Return tt);
          doRender := fun h => (h, Throw "no context"%string) |} |}.

End Game0.

(* ================================================================== *)
(** ** Properties of the packing loop                                 *)
(* ================================================================== *)

Import TextureAtlas.

Local Abbreviation iw := HTMLImageElement.width.
Local Abbreviation ih := HTMLImageElement.height.
Local Abbreviation rx := TextureAtlasRecord.top_left_x.
Local Abbreviation ry := TextureAtlasRecord.top_left_y.
Local Abbreviation rw := TextureAtlasRecord.width.
Local Abbreviation rh := TextureAtlasRecord.height.
Local Abbreviation pw st := (TextureAtlasPlan.width (plan st)).
Local Abbreviation ph st := (TextureAtlasPlan.height (plan st)).
Local Abbreviation recs st := (TextureAtlasPlan.records (plan st)).

Ltac ltb_cases :=
  repeat match goal with
    | |- context [?a <? ?b] => destruct (N.ltb_spec a b)
    | H : context [?a <? ?b] |- _ => destruct (N.ltb_spec a b)
    end.

Lemma max_by_ltb (a b : N) : (if a <? b then b else a) = N.max a b.
Proof. ltb_cases; lia. Qed.

(** *** One iteration *)

Lemma packImage_Return st image st' :
  packImage st image = Return st' <->
  iw image <= MAX_DIMENSION
  /\ ph (advanceRow st image) + ih image <= MAX_DIMENSION
  /\ st' = place (advanceRow st image) image.
Proof.
  unfold packImage. cbv zeta.
  destruct (N.ltb_spec MAX_DIMENSION (iw image)) as [Hw|Hw].
  - split; [discriminate | lia].
  - destruct (N.ltb_spec MAX_DIMENSION
                (ph (advanceRow st image) + ih image)) as [Hh|Hh].
    + split; [discriminate | lia].
    + split.
      * intros [= <-]. auto.
      * intros (_ & _ & ->). reflexivity.
Qed.

Lemma packImage_Throw st image e :
  packImage st image = Throw e <->
  (MAX_DIMENSION < iw image /\ e = width_exceeded)
  \/ (iw image <= MAX_DIMENSION
      /\ MAX_DIMENSION < ph (advanceRow st image) + ih image
      /\ e = height_exceeded).
Proof.
  unfold packImage. cbv zeta.
  destruct (N.ltb_spec MAX_DIMENSION (iw image)) as [Hw|Hw].
  - split.
    + intros [= <-]. auto.
    + intros [(_ & ->) | (? & _)]; [reflexivity | lia].
  - destruct (N.ltb_spec MAX_DIMENSION
                (ph (advanceRow st image) + ih image)) as [Hh|Hh].
    + split.
      * intros [= <-]. auto.
      * intros [(? & _) | (_ & _ & ->)]; [lia | reflexivity].
    + split; [discriminate |].
      intros [(? & _) | (_ & ? & _)]; lia.
Qed.

Lemma advanceRow_height st image :
  ph (advanceRow st image)
  = if wraps st image then ph st + current_row_height st else ph st.
Proof. unfold advanceRow. destruct (wraps st image); reflexivity. Qed.

Lemma advanceRow_records st image :
  recs (advanceRow st image) = recs st.
Proof. unfold advanceRow. destruct (wraps st image); reflexivity. Qed.

Lemma advanceRow_fits st image :
  iw image <= MAX_DIMENSION ->
  current_x (advanceRow st image) + iw image <= MAX_DIMENSION.
Proof.
  intros Hw. unfold advanceRow, wraps.
  destruct (N.ltb_spec MAX_DIMENSION (current_x st + iw image)); simpl; lia.
Qed.

Lemma place_records st image :
  recs (place st image)
  = recs st ++ [rec (current_x st) (ph st) (iw image) (ih image)].
Proof. reflexivity. Qed.

Lemma place_height st image : ph (place st image) = ph st.
Proof. reflexivity. Qed.

Lemma place_width st image :
  pw (place st image) = N.max (pw st) (current_x st + iw image).
Proof. unfold place. simpl. apply max_by_ltb. Qed.

Lemma place_current_x st image :
  current_x (place st image) = current_x st + iw image.
Proof. reflexivity. Qed.

Lemma place_row_height st image :
  current_row_height (place st image)
  = N.max (current_row_height st) (ih image).
Proof. unfold place. simpl. apply max_by_ltb. Qed.

(** *** The loop *)

Lemma packLoop_app st xs ys :
  packLoop st (xs ++ ys)
  = match packLoop st xs with
    | Return st' => packLoop st' ys
    | Throw e => Throw e
    end.
Proof.
  revert st. induction xs as [|x xs IH]; intros st; simpl.
  - reflexivity.
  - destruct (packImage st x); [apply IH | reflexivity].
Qed.

(** Whatever one iteration preserves, the loop preserves. *)
Lemma packLoop_invariant (P : Locals -> Prop) :
  (forall st image st', P st -> packImage st image = Return st' -> P st') ->
  forall images st st',
    P st -> packLoop st images = Return st' -> P st'.
Proof.
  intros Hstep images.
  induction images as [|x xs IH]; intros st st' HP Hrun; simpl in Hrun.
  - now injection Hrun as <-.
  - destruct (packImage st x) as [st1|e] eqn:Hx; [|discriminate].
    eapply IH; [|eassumption]. eauto.
Qed.

(** Same, for a relation between the locals before and after. *)
Lemma packLoop_invariant2 (R : Locals -> Locals -> Prop) :
  (forall st, R st st) ->
  (forall a b c, R a b -> R b c -> R a c) ->
  (forall st image st', packImage st image = Return st' -> R st st') ->
  forall images st st', packLoop st images = Return st' -> R st st'.
Proof.
  intros Hrefl Htrans Hstep images.
  induction images as [|x xs IH]; intros st st' Hrun; simpl in Hrun.
  - injection Hrun as <-. apply Hrefl.
  - destruct (packImage st x) as [st1|e] eqn:Hx; [|discriminate].
    eapply Htrans; eauto.
Qed.

(** *** What holds of the locals at every iteration *)

Lemma nth_error_snoc {A} (l : list A) (x : A) (j : nat) (y : A) :
  nth_error (l ++ [x]) j = Some y ->
  ((j < length l)%nat /\ nth_error l j = Some y)
  \/ (j = length l /\ y = x).
Proof.
  intros H. destruct (Nat.lt_ge_cases j (length l)) as [Hlt|Hge].
  - left. split; [assumption|]. now rewrite nth_error_app1 in H.
  - right. rewrite nth_error_app2 in H by assumption.
    destruct (j - length l)%nat as [|k] eqn:Hk; simpl in H.
    + injection H as <-. split; [lia | reflexivity].
    + destruct k; discriminate.
Qed.

Lemma maxRight_snoc l r : maxRight (l ++ [r]) = N.max (maxRight l) (right r).
Proof.
  unfold maxRight. induction l as [|a l IH]; simpl.
  - lia.
  - rewrite IH. lia.
Qed.

Lemma maxRight_bound l r : In r l -> right r <= maxRight l.
Proof.
  unfold maxRight. induction l as [|a l IH]; simpl; [tauto|].
  intros [<- | Hin]; [lia | specialize (IH Hin); lia].
Qed.

(** The loop invariant.  Records of earlier rows end at or above the
    committed height; records of the row in progress start at the
    committed height, end at or left of [current_x], and are no taller
    than [current_row_height]. *)
Record Inv (st : Locals) : Prop :=
  { inv_x : current_x st <= pw st;
    inv_w : pw st <= MAX_DIMENSION;
    inv_h : ph st + current_row_height st <= MAX_DIMENSION;
    inv_maxRight : pw st = maxRight (recs st);
    inv_rows : forall r, In r (recs st) ->
        bottom r <= ph st
        \/ (ry r = ph st /\ right r <= current_x st
            /\ rh r <= current_row_height st);
    inv_apart : forall i j ri rj, (i < j)%nat ->
        nth_error (recs st) i = Some ri ->
        nth_error (recs st) j = Some rj ->
        right ri <= rx rj \/ bottom ri <= ry rj;
    inv_sorted : forall i j ri rj, (i <= j)%nat ->
        nth_error (recs st) i = Some ri ->
        nth_error (recs st) j = Some rj ->
        ry ri <= ry rj }.

Lemma Inv_initial : Inv initial.
Proof.
  constructor; simpl.
  - lia.
  - unfold MAX_DIMENSION. lia.
  - unfold MAX_DIMENSION. lia.
  - reflexivity.
  - intros r [].
  - intros i j ri rj _ H. destruct i; discriminate.
  - intros i j ri rj _ H. destruct i; discriminate.
Qed.

Lemma Inv_advanceRow st image : Inv st -> Inv (advanceRow st image).
Proof.
  intros I. unfold advanceRow. destruct (wraps st image); [|assumption].
  destruct I as [Ix Iw Ih Im Ir Ia Is].
  constructor; simpl; try assumption; try lia.
  intros r Hr. left. unfold bottom in *.
  destruct (Ir r Hr) as [H | (H1 & H2 & H3)]; lia.
Qed.

Lemma Inv_place st image :
  Inv st ->
  current_x st + iw image <= MAX_DIMENSION ->
  ph st + ih image <= MAX_DIMENSION ->
  Inv (place st image).
Proof.
  intros [Ix Iw Ih Im Ir Ia Is] Hx Hh.
  assert (Hy : forall r, In r (recs st) -> ry r <= ph st).
  { intros r Hr. unfold bottom in Ir.
    destruct (Ir r Hr) as [H | (H & _)]; lia. }
  constructor;
    rewrite ?place_records, ?place_height, ?place_width,
            ?place_current_x, ?place_row_height.
  - lia.
  - lia.
  - lia.
  - rewrite maxRight_snoc, <- Im. unfold right, rec. simpl. reflexivity.
  - intros r Hr. apply in_app_or in Hr. destruct Hr as [Hr | [<- | []]].
    + destruct (Ir r Hr) as [H | (H1 & H2 & H3)]; [left; assumption|].
      right. lia.
    + right. unfold right, rec. simpl. lia.
  - intros i j ri rj Hij Hi Hj.
    apply nth_error_snoc in Hj. destruct Hj as [(Hlt & Hj) | (Hj & ->)].
    + rewrite nth_error_app1 in Hi by lia. eauto.
    + rewrite nth_error_app1 in Hi by lia.
      apply nth_error_In in Hi. unfold rec; simpl.
      destruct (Ir ri Hi) as [H | (H1 & H2 & H3)]; [right | left]; lia.
  - intros i j ri rj Hij Hi Hj.
    apply nth_error_snoc in Hj. destruct Hj as [(Hlt & Hj) | (Hj & ->)].
    + rewrite nth_error_app1 in Hi by lia. eauto.
    + apply nth_error_snoc in Hi. destruct Hi as [(Hlt & Hi) | (_ & ->)].
      * apply nth_error_In in Hi. unfold rec; simpl. auto.
      * lia.
Qed.

Lemma Inv_packImage st image st' :
  Inv st -> packImage st image = Return st' -> Inv st'.
Proof.
  intros I H. apply packImage_Return in H. destruct H as (Hw & Hh & ->).
  apply Inv_place.
  - now apply Inv_advanceRow.
  - now apply advanceRow_fits.
  - assumption.
Qed.

Lemma Inv_packLoop images st st' :
  Inv st -> packLoop st images = Return st' -> Inv st'.
Proof. apply packLoop_invariant. exact Inv_packImage. Qed.

(** *** Records against images *)

Lemma packLoop_records images : forall st st',
  packLoop st images = Return st' ->
  exists new, recs st' = recs st ++ new /\ Forall2 sameSize images new.
Proof.
  induction images as [|x xs IH]; intros st st' Hrun; simpl in Hrun.
  - injection Hrun as <-. exists []. split; [now rewrite app_nil_r | constructor].
  - destruct (packImage st x) as [st1|e] eqn:Hx; [|discriminate].
    apply packImage_Return in Hx. destruct Hx as (_ & _ & ->).
    destruct (IH _ _ Hrun) as (new & Hnew & Hall).
    rewrite place_records, advanceRow_records, <- app_assoc in Hnew.
    eexists. split; [exact Hnew|].
    constructor; [split; reflexivity | assumption].
Qed.

(** *** The loop against shelf packing *)

Lemma rowHeight_snoc row image :
  rowHeight (row ++ [image]) = N.max (rowHeight row) (ih image).
Proof.
  unfold rowHeight. induction row as [|a row IH]; simpl.
  - lia.
  - rewrite IH. lia.
Qed.

Lemma sumN_cons a l : sumN (a :: l) = a + sumN l.
Proof. reflexivity. Qed.

Lemma rowHeight_single image : rowHeight [image] = ih image.
Proof. unfold rowHeight. simpl. lia. Qed.

Lemma shelves_cons x row image rest :
  shelves x row (image :: rest)
  = if MAX_DIMENSION <? x + iw image
    then (row :: fst (shelves (iw image) [image] rest),
          snd (shelves (iw image) [image] rest))
    else shelves (x + iw image) (row ++ [image]) rest.
Proof.
  simpl. destruct (MAX_DIMENSION <? x + iw image); [|reflexivity].
  now destruct (shelves (iw image) [image] rest).
Qed.

Lemma shelvesHeight_ge images : forall x row,
  rowHeight row <= shelvesHeight x row images.
Proof.
  unfold shelvesHeight.
  induction images as [|image rest IH]; intros x row.
  - simpl. lia.
  - rewrite shelves_cons. destruct (MAX_DIMENSION <? x + iw image).
    + cbn [fst snd map]. rewrite sumN_cons. lia.
    + specialize (IH (x + iw image) (row ++ [image])).
      rewrite rowHeight_snoc in IH. lia.
Qed.

(** The loop commits exactly the completed shelves, and its
    [current_row_height] is the height of the final shelf. *)
Lemma packLoop_shelves images : forall st row st',
  rowHeight row = current_row_height st ->
  packLoop st images = Return st' ->
  ph st' = ph st + sumN (map rowHeight (fst (shelves (current_x st) row images)))
  /\ current_row_height st' = rowHeight (snd (shelves (current_x st) row images)).
Proof.
  induction images as [|image rest IH]; intros st row st' Hrow Hrun.
  - simpl in *. injection Hrun as <-. split; [lia | now symmetry].
  - simpl in Hrun.
    destruct (packImage st image) as [st1|e] eqn:Hx; [|discriminate].
    apply packImage_Return in Hx. destruct Hx as (_ & _ & ->).
    rewrite shelves_cons. unfold advanceRow, wraps in Hrun.
    destruct (MAX_DIMENSION <? current_x st + iw image).
    + apply (IH _ [image]) in Hrun;
        [| rewrite place_row_height, rowHeight_single;
           cbn [current_row_height]; lia].
      destruct Hrun as (H1 & H2).
      rewrite place_height, place_current_x in *.
      cbn [current_x plan TextureAtlasPlan.height fst snd map] in *.
      rewrite N.add_0_l in *.
      split; [rewrite sumN_cons; lia | assumption].
    + apply (IH _ (row ++ [image])) in Hrun;
        [| rewrite place_row_height, rowHeight_snoc; lia].
      destruct Hrun as (H1 & H2).
      rewrite place_height, place_current_x in *.
      split; assumption.
Qed.

(** When every width fits and all the shelves together fit, no
    iteration throws. *)
Lemma packLoop_succeeds images : forall st row,
  rowHeight row = current_row_height st ->
  Forall (fun image => iw image <= MAX_DIMENSION) images ->
  ph st + shelvesHeight (current_x st) row images <= MAX_DIMENSION ->
  exists st', packLoop st images = Return st'.
Proof.
  unfold shelvesHeight.
  induction images as [|image rest IH]; intros st row Hrow Hall Hfit.
  - simpl. eauto.
  - inversion Hall as [|? ? Hw Hall']; subst.
    rewrite shelves_cons in Hfit. simpl packLoop.
    pose proof (shelvesHeight_ge rest (iw image) [image]) as G1.
    pose proof (shelvesHeight_ge rest (current_x st + iw image)
                  (row ++ [image])) as G2.
    unfold shelvesHeight in G1, G2.
    rewrite rowHeight_snoc in G2. rewrite rowHeight_single in G1.
    assert (Hstep : packImage st image
                    = Return (place (advanceRow st image) image)).
    { apply packImage_Return. repeat split; [assumption|].
      rewrite advanceRow_height. unfold wraps.
      destruct (MAX_DIMENSION <? current_x st + iw image);
        cbn [fst snd map] in Hfit; rewrite ?sumN_cons in Hfit; lia. }
    rewrite Hstep. unfold advanceRow, wraps.
    destruct (MAX_DIMENSION <? current_x st + iw image);
      cbn [fst snd map] in Hfit; rewrite ?sumN_cons in Hfit.
    + apply (IH _ [image]).
      * rewrite place_row_height, rowHeight_single.
        cbn [current_row_height]. lia.
      * assumption.
      * rewrite place_height, place_current_x.
        cbn [current_x plan TextureAtlasPlan.height]. rewrite N.add_0_l. lia.
    + apply (IH _ (row ++ [image])).
      * rewrite place_row_height, rowHeight_snoc. lia.
      * assumption.
      * rewrite place_height, place_current_x. lia.
Qed.

(** *** From the loop to [planPacking] *)

Lemma planPacking_Return images p :
  planPacking images = Return p <->
  exists st, packLoop initial images = Return st /\ p = plan st.
Proof.
  unfold planPacking. destruct (packLoop initial images) as [st|e]; split.
  - intros [= <-]. eauto.
  - intros (st' & [= <-] & ->). reflexivity.
  - discriminate.
  - intros (st' & H & _). discriminate.
Qed.

Lemma planPacking_Throw images e :
  planPacking images = Throw e <-> packLoop initial images = Throw e.
Proof.
  unfold planPacking. destruct (packLoop initial images) as [st|e'];
    split; congruence.
Qed.

Lemma planPacking_Inv images p :
  planPacking images = Return p ->
  exists st, packLoop initial images = Return st /\ p = plan st /\ Inv st.
Proof.
  intros H. apply planPacking_Return in H. destruct H as (st & Hrun & ->).
  exists st. split; [assumption|]. split; [reflexivity|].
  eapply Inv_packLoop; [exact Inv_initial | eassumption].
Qed.

Lemma planPacking_sameSize images p :
  planPacking images = Return p ->
  Forall2 sameSize images (TextureAtlasPlan.records p).
Proof.
  intros H. apply planPacking_Return in H. destruct H as (st & Hrun & ->).
  apply packLoop_records in Hrun. destruct Hrun as (new & Hnew & Hall).
  simpl in Hnew. now rewrite Hnew.
Qed.

(** The loop throws exactly when some iteration, reached without a
    throw, throws. *)
Lemma packLoop_Throw images : forall st e,
  packLoop st images = Throw e <->
  exists before image after st1,
    images = before ++ image :: after
    /\ packLoop st before = Return st1
    /\ packImage st1 image = Throw e.
Proof.
  induction images as [|x xs IH]; intros st e; simpl.
  - split; [discriminate|].
    intros (before & image & after & st1 & H & _).
    now destruct before.
  - destruct (packImage st x) as [st'|e'] eqn:Hx.
    + rewrite IH. split.
      * intros (before & image & after & st1 & -> & Hrun & Hthrow).
        exists (x :: before), image, after, st1.
        simpl. rewrite Hx. auto.
      * intros (before & image & after & st1 & Heq & Hrun & Hthrow).
        destruct before as [|b before]; simpl in *.
        -- injection Heq as -> ->. injection Hrun as ->. congruence.
        -- injection Heq as -> ->. rewrite Hx in Hrun.
           exists before, image, after, st1. auto.
    + split.
      * intros [= ->]. exists [], x, xs, st. auto.
      * intros (before & image & after & st1 & Heq & Hrun & Hthrow).
        destruct before as [|b before]; simpl in *.
        -- injection Heq as -> ->. injection Hrun as ->. congruence.
        -- injection Heq as -> ->. rewrite Hx in Hrun. discriminate.
Qed.

(** The committed height never decreases. *)
Lemma packImage_height_mono st image st' :
  packImage st image = Return st' -> ph st <= ph st'.
Proof.
  intros H. apply packImage_Return in H. destruct H as (_ & _ & ->).
  rewrite place_height, advanceRow_height.
  destruct (wraps st image); lia.
Qed.

Lemma packLoop_height_mono images st st' :
  packLoop st images = Return st' -> ph st <= ph st'.
Proof.
  apply (packLoop_invariant2 (fun a b => ph a <= ph b)).
  - intros; lia.
  - intros; lia.
  - exact packImage_height_mono.
Qed.

(** *** Rectangles *)

Lemma apart_no_overlap a b :
  right a <= rx b \/ bottom a <= ry b ->
  overlap a b = false /\ overlap b a = false.
Proof.
  intros H. unfold overlap.
  destruct (N.ltb_spec (rx a) (right b)), (N.ltb_spec (rx b) (right a)),
    (N.ltb_spec (ry a) (bottom b)), (N.ltb_spec (ry b) (bottom a));
    simpl; split; try reflexivity; lia.
Qed.

(** [overlap] is the right test: rectangles sharing a pixel overlap. *)
Lemma covers_overlap a b px py :
  covers a px py -> covers b px py -> overlap a b = true.
Proof.
  unfold covers, overlap. intros [Hx Hy] [Hx' Hy'].
  repeat (apply andb_true_intro; split); apply N.ltb_lt; lia.
Qed.

Lemma maxRight_attained l :
  l <> [] -> exists r, In r l /\ right r = maxRight l.
Proof.
  unfold maxRight. induction l as [|a l IH]; [congruence|]. intros _.
  destruct l as [|b l].
  - exists a. simpl. split; [auto | lia].
  - destruct IH as (r & Hr & Heq); [discriminate|].
    cbn [map fold_right] in *.
    destruct (N.le_ge_cases (right a)
                (N.max (right b) (fold_right N.max 0 (map right l)))).
    + exists r. split; [now right | lia].
    + exists a. split; [now left | lia].
Qed.

(** *** The final row *)

Lemma shelves_final_nonempty images : forall x row,
  row <> [] \/ images <> [] -> snd (shelves x row images) <> [].
Proof.
  induction images as [|image rest IH]; intros x row H.
  - simpl. destruct H; congruence.
  - rewrite shelves_cons. destruct (MAX_DIMENSION <? x + iw image).
    + cbn [snd]. apply IH. left. discriminate.
    + apply IH. left. now destruct row.
Qed.

(** The records of the final shelf are the last records of the plan,
    and all of them start at the committed height. *)
Lemma packLoop_final_row images : forall st row st',
  (length row <= length (recs st))%nat ->
  (forall k r, (length (recs st) - length row <= k)%nat ->
               nth_error (recs st) k = Some r -> ry r = ph st) ->
  packLoop st images = Return st' ->
  let final := snd (shelves (current_x st) row images) in
  (length final <= length (recs st'))%nat
  /\ forall k r, (length (recs st') - length final <= k)%nat ->
                 nth_error (recs st') k = Some r -> ry r = ph st'.
Proof.
  induction images as [|image rest IH]; intros st row st' Hlen Hrow Hrun.
  - simpl in *. injection Hrun as <-. auto.
  - simpl in Hrun.
    destruct (packImage st image) as [st1|e] eqn:Hx; [|discriminate].
    apply packImage_Return in Hx. destruct Hx as (_ & _ & ->).
    rewrite shelves_cons. unfold advanceRow, wraps in Hrun.
    destruct (MAX_DIMENSION <? current_x st + iw image); cbn [snd].
    + apply (IH _ [image]) in Hrun.
      * rewrite place_current_x in Hrun. cbn [current_x] in Hrun.
        now rewrite N.add_0_l in Hrun.
      * rewrite place_records, length_app. simpl. lia.
      * intros k r Hk Hr. rewrite place_records in Hk, Hr.
        rewrite length_app in Hk. simpl in Hk.
        apply nth_error_snoc in Hr. destruct Hr as [(Hlt & _) | (_ & ->)].
        -- simpl in Hlt. lia.
        -- reflexivity.
    + apply (IH _ (row ++ [image])) in Hrun.
      * now rewrite place_current_x in Hrun.
      * rewrite place_records, !length_app. simpl. lia.
      * intros k r Hk Hr. rewrite place_records in Hk, Hr.
        rewrite !length_app in Hk. simpl in Hk.
        apply nth_error_snoc in Hr. destruct Hr as [(Hlt & Hr) | (_ & ->)].
        -- rewrite place_height. apply (Hrow k r); [lia | assumption].
        -- reflexivity.
Qed.

Lemma sameSize_positive images records :
  Forall2 sameSize images records ->
  Forall (fun image => 0 < ih image) images ->
  forall r, In r records -> 0 < rh r.
Proof.
  induction 1 as [|image r images records [_ Hh] _ IH]; intros Hpos r' Hin.
  - destruct Hin.
  - inversion Hpos; subst. destruct Hin as [<- | Hin].
    + now rewrite Hh.
    + now apply IH.
Qed.

(** *** The canvas *)

Lemma drawLoop_size records images : forall i c c',
  drawLoop records i images c = Return c' ->
  HTMLCanvasElement.width c' = HTMLCanvasElement.width c
  /\ HTMLCanvasElement.height c' = HTMLCanvasElement.height c.
Proof.
  induction images as [|image rest IH]; intros i c c' H; simpl in H.
  - injection H as <-. auto.
  - destruct (nth_error records i) as [r|]; [|discriminate].
    apply IH in H. exact H.
Qed.

Lemma drawLoop_returns records images : forall i c,
  (i + length images <= length records)%nat ->
  exists c', drawLoop records i images c = Return c'.
Proof.
  induction images as [|image rest IH]; intros i c Hlen; simpl in *.
  - eauto.
  - destruct (nth_error records i) as [r|] eqn:Hr.
    + apply IH. lia.
    + apply nth_error_None in Hr. lia.
Qed.

(* ================================================================== *)
(** ** The stated properties of [planPacking] and [packCanvas]        *)
(* ================================================================== *)

(** C1. When every image is at most [MAX_DIMENSION] wide and high and
    the rows together (the final row included) are at most
    [MAX_DIMENSION] high, [planPacking] returns a plan; the plan has one
    record per image, in input order, each with the width and height of
    its image; and no two records overlap, nor cover a common pixel. *)
Theorem planPacking_succeeds_without_overlap
    (images : list HTMLImageElement.t) :
  Forall (fun image => iw image <= MAX_DIMENSION
                       /\ ih image <= MAX_DIMENSION) images ->
  totalPackedHeight images <= MAX_DIMENSION ->
  exists p,
    planPacking images = Return p
    /\ length (TextureAtlasPlan.records p) = length images
    /\ Forall2 sameSize images (TextureAtlasPlan.records p)
    /\ forall i j ri rj,
         i <> j ->
         nth_error (TextureAtlasPlan.records p) i = Some ri ->
         nth_error (TextureAtlasPlan.records p) j = Some rj ->
         overlap ri rj = false
         /\ forall px py, ~ (covers ri px py /\ covers rj px py).
Proof.
  intros Hdim Htotal.
  destruct (packLoop_succeeds images initial []) as (st & Hrun).
  - reflexivity.
  - eapply Forall_impl; [|exact Hdim]. simpl. tauto.
  - exact Htotal.
  - assert (Hp : planPacking images = Return (plan st)).
    { apply planPacking_Return. eauto. }
    pose proof (planPacking_sameSize _ _ Hp) as Hsame.
    pose proof (Inv_packLoop _ _ _ Inv_initial Hrun) as I.
    exists (plan st). split; [assumption|].
    split; [symmetry; exact (Forall2_length Hsame)|].
    split; [assumption|].
    intros i j ri rj Hij Hi Hj.
    assert (Hno : overlap ri rj = false).
    { destruct (Nat.lt_gt_cases i j) as [Hcases _].
      destruct (Hcases Hij) as [Hlt | Hgt].
      - apply (apart_no_overlap ri rj).
        exact (inv_apart _ I i j ri rj Hlt Hi Hj).
      - apply (apart_no_overlap rj ri).
        exact (inv_apart _ I j i rj ri Hgt Hj Hi). }
    split; [assumption|].
    intros px py [Ha Hb].
    pose proof (covers_overlap _ _ _ _ Ha Hb). congruence.
Qed.

Lemma planPacking_succeeds_without_overlap_witness :
  Forall (fun image => iw image <= MAX_DIMENSION
                       /\ ih image <= MAX_DIMENSION) exampleImages
  /\ totalPackedHeight exampleImages <= MAX_DIMENSION
  /\ exists p,
       planPacking exampleImages = Return p
       /\ length (TextureAtlasPlan.records p) = length exampleImages
       /\ Forall2 sameSize exampleImages (TextureAtlasPlan.records p)
       /\ forall i j ri rj,
            i <> j ->
            nth_error (TextureAtlasPlan.records p) i = Some ri ->
            nth_error (TextureAtlasPlan.records p) j = Some rj ->
            overlap ri rj = false
            /\ forall px py, ~ (covers ri px py /\ covers rj px py).
Proof.
  assert (H1 : Forall (fun image => iw image <= MAX_DIMENSION
                                    /\ ih image <= MAX_DIMENSION)
                 exampleImages).
  { repeat constructor; vm_compute; discriminate. }
  assert (H2 : totalPackedHeight exampleImages <= MAX_DIMENSION).
  { vm_compute. discriminate. }
  split; [exact H1|]. split; [exact H2|].
  exact (planPacking_succeeds_without_overlap exampleImages H1 H2).
Defined.

(** C2 (the code departs from it).  For the single image 10x10 the plan
    is 10 wide and 0 high, and its only record ends at y = 10, below
    the plan's height: [top_left_y + height <= plan.height] fails. *)
Theorem planPacking_record_below_plan_height :
  planPacking [img 10 10]
  = Return {| TextureAtlasPlan.width := 10;
              TextureAtlasPlan.height := 0;
              TextureAtlasPlan.records := [rec 0 0 10 10] |}
  /\ ~ (bottom (rec 0 0 10 10) <= 0).
Proof.
  split.
  - reflexivity.
  - vm_compute. intros H. now apply H.
Qed.

(** The part of C2 the code does keep: every record ends at or left of
    [plan.width], and both plan dimensions are at most
    [MAX_DIMENSION]. *)
Lemma planPacking_bounds images p :
  planPacking images = Return p ->
  TextureAtlasPlan.width p <= MAX_DIMENSION
  /\ TextureAtlasPlan.height p <= MAX_DIMENSION
  /\ forall r, In r (TextureAtlasPlan.records p) ->
               right r <= TextureAtlasPlan.width p.
Proof.
  intros H. apply planPacking_Inv in H. destruct H as (st & _ & -> & I).
  pose proof (inv_w _ I). pose proof (inv_h _ I).
  split; [assumption|]. split; [lia|].
  intros r Hr. rewrite (inv_maxRight _ I). now apply maxRight_bound.
Qed.

(** The height condition of C1 is also necessary: a returned plan means
    that all the rows together, the final one included, fit. *)
Lemma planPacking_total_height images p :
  planPacking images = Return p ->
  totalPackedHeight images <= MAX_DIMENSION.
Proof.
  intros H. apply planPacking_Inv in H. destruct H as (st & Hrun & _ & I).
  destruct (packLoop_shelves images initial [] st eq_refl Hrun) as (H1 & H2).
  pose proof (inv_h _ I) as Hh. rewrite H1, H2 in Hh.
  unfold totalPackedHeight, committedHeight, completedRows, finalRow.
  simpl in Hh. lia.
Qed.

(** C3. The height of the returned plan is the sum of the row heights
    of the completed rows; the height of the final row, which the loop
    still holds in [current_row_height], is not part of it.  In one
    iteration the height grows by [current_row_height] when the image
    wraps, and not at all otherwise. *)
Theorem plan_height_is_sum_of_completed_rows
    (images : list HTMLImageElement.t) (p : TextureAtlasPlan.t) :
  planPacking images = Return p ->
  TextureAtlasPlan.height p = committedHeight images
  /\ (exists st, packLoop initial images = Return st /\ p = plan st
        /\ current_row_height st = rowHeight (finalRow images))
  /\ (forall st image st', packImage st image = Return st' ->
        ph st' = if wraps st image
                 then ph st + current_row_height st else ph st).
Proof.
  intros H. apply planPacking_Return in H. destruct H as (st & Hrun & ->).
  destruct (packLoop_shelves images initial [] st eq_refl Hrun) as (H1 & H2).
  split; [exact H1|]. split.
  - exists st. auto.
  - intros s image s' Hs. apply packImage_Return in Hs.
    destruct Hs as (_ & _ & ->).
    now rewrite place_height, advanceRow_height.
Qed.

Lemma plan_height_is_sum_of_completed_rows_witness :
  planPacking exampleImages
  = Return {| TextureAtlasPlan.width := 4050;
              TextureAtlasPlan.height := 50;
              TextureAtlasPlan.records :=
                [rec 0 0 100 50; rec 100 0 100 50; rec 0 50 4050 50] |}
  /\ 50 = committedHeight exampleImages.
Proof.
  assert (H : planPacking exampleImages
              = Return {| TextureAtlasPlan.width := 4050;
                          TextureAtlasPlan.height := 50;
                          TextureAtlasPlan.records :=
                            [rec 0 0 100 50; rec 100 0 100 50;
                             rec 0 50 4050 50] |}) by reflexivity.
  split; [exact H|].
  exact (proj1 (plan_height_is_sum_of_completed_rows _ _ H)).
Defined.

(** C4. The width of the returned plan is the largest right edge
    [top_left_x + width] among its records: no record reaches further,
    some record reaches it when there is one, and it is 0 when there is
    none. *)
Theorem plan_width_is_max_right_edge
    (images : list HTMLImageElement.t) (p : TextureAtlasPlan.t) :
  planPacking images = Return p ->
  TextureAtlasPlan.width p = maxRight (TextureAtlasPlan.records p)
  /\ (forall r, In r (TextureAtlasPlan.records p) ->
                right r <= TextureAtlasPlan.width p)
  /\ (TextureAtlasPlan.records p <> [] ->
      exists r, In r (TextureAtlasPlan.records p)
                /\ right r = TextureAtlasPlan.width p)
  /\ (images = [] -> TextureAtlasPlan.width p = 0).
Proof.
  intros H. pose proof (planPacking_Inv _ _ H) as (st & _ & -> & I).
  rewrite (inv_maxRight _ I). split; [reflexivity|]. split; [|split].
  - intros r Hr. now apply maxRight_bound.
  - apply maxRight_attained.
  - intros ->. unfold planPacking in H. simpl in H.
    injection H as H. rewrite <- H. reflexivity.
Qed.

Lemma plan_width_is_max_right_edge_witness :
  planPacking exampleImages
  = Return {| TextureAtlasPlan.width := 4050;
              TextureAtlasPlan.height := 50;
              TextureAtlasPlan.records :=
                [rec 0 0 100 50; rec 100 0 100 50; rec 0 50 4050 50] |}
  /\ 4050 = maxRight [rec 0 0 100 50; rec 100 0 100 50; rec 0 50 4050 50].
Proof.
  assert (H : planPacking exampleImages
              = Return {| TextureAtlasPlan.width := 4050;
                          TextureAtlasPlan.height := 50;
                          TextureAtlasPlan.records :=
                            [rec 0 0 100 50; rec 100 0 100 50;
                             rec 0 50 4050 50] |}) by reflexivity.
  split; [exact H|].
  exact (proj1 (plan_width_is_max_right_edge _ _ H)).
Defined.

(** C5. [planPacking] throws exactly when, going through the images in
    input order, it reaches without a throw an image that is wider than
    [MAX_DIMENSION] (width error), or whose height added to the
    committed height after that image's row-wrap decision exceeds
    [MAX_DIMENSION] (height error).  Hence any input that holds an image
    wider than [MAX_DIMENSION], at whatever position, makes it throw. *)
Theorem planPacking_throws_iff :
  (forall images e,
      planPacking images = Throw e <->
      exists before image after st,
        images = before ++ image :: after
        /\ packLoop initial before = Return st
        /\ ((MAX_DIMENSION < iw image /\ e = width_exceeded)
            \/ (iw image <= MAX_DIMENSION
                /\ MAX_DIMENSION < ph (advanceRow st image) + ih image
                /\ e = height_exceeded)))
  /\ (forall images,
         Exists (fun image => MAX_DIMENSION < iw image) images ->
         exists e, planPacking images = Throw e).
Proof.
  split.
  - intros images e. rewrite planPacking_Throw, packLoop_Throw.
    split; intros (before & image & after & st & Heq & Hrun & Hthrow);
      exists before, image, after, st; repeat split; try assumption;
      now apply packImage_Throw.
  - intros images Hex. apply Exists_exists in Hex.
    destruct Hex as (image & Hin & Hwide).
    apply in_split in Hin. destruct Hin as (before & after & ->).
    unfold planPacking. rewrite packLoop_app.
    destruct (packLoop initial before) as [st|e]; [|eauto].
    simpl. unfold packImage.
    apply N.ltb_lt in Hwide. rewrite Hwide. eauto.
Qed.

Lemma planPacking_throws_iff_witness :
  Exists (fun image => MAX_DIMENSION < iw image) [img 100 50; img 5000 10]
  /\ exists e, planPacking [img 100 50; img 5000 10] = Throw e.
Proof.
  assert (H : Exists (fun image => MAX_DIMENSION < iw image)
                [img 100 50; img 5000 10]).
  { apply Exists_cons_tl, Exists_cons_hd. reflexivity. }
  split; [exact H|].
  exact (proj2 planPacking_throws_iff _ H).
Defined.

(** Splitting a run of the loop at one image. *)
Lemma packLoop_split before image after st stf :
  packLoop st (before ++ image :: after) = Return stf ->
  exists st1 st2,
    packLoop st before = Return st1
    /\ packImage st1 image = Return st2
    /\ packLoop st2 after = Return stf.
Proof.
  rewrite packLoop_app.
  destruct (packLoop st before) as [st1|e]; [|discriminate].
  simpl. destruct (packImage st1 image) as [st2|e] eqn:Hi; [|discriminate].
  intros Ha. exists st1, st2. auto.
Qed.

(** C8. The [top_left_y] of the records never decreases along the
    plan.  Each record's [top_left_y] is the committed height at the
    moment its image is placed, and the committed height only grows
    from there to the end of the pass. *)
Theorem records_top_left_y_nondecreasing
    (images : list HTMLImageElement.t) (p : TextureAtlasPlan.t) :
  planPacking images = Return p ->
  (forall i j ri rj,
      (i <= j)%nat ->
      nth_error (TextureAtlasPlan.records p) i = Some ri ->
      nth_error (TextureAtlasPlan.records p) j = Some rj ->
      ry ri <= ry rj)
  /\ (forall before image after,
         images = before ++ image :: after ->
         exists st st' r,
           packLoop initial before = Return st
           /\ packImage st image = Return st'
           /\ nth_error (TextureAtlasPlan.records p) (length before) = Some r
           /\ ry r = ph (advanceRow st image)
           /\ ph st <= ph (advanceRow st image)
           /\ ph (advanceRow st image) = ph st'
           /\ ph st' <= TextureAtlasPlan.height p).
Proof.
  intros H. pose proof (planPacking_Inv _ _ H) as (stf & Hrun & -> & I).
  split; [exact (inv_sorted _ I)|].
  intros before image after ->.
  destruct (packLoop_split _ _ _ _ _ Hrun) as (st & st' & Hb & Hi & Ha).
  exists st, st'.
  pose proof (packImage_height_mono _ _ _ Hi) as Hmono.
  pose proof (packLoop_height_mono _ _ _ Ha) as Hmono'.
  destruct (packLoop_records _ _ _ Hb) as (newb & Hnewb & Hallb).
  destruct (packLoop_records _ _ _ Ha) as (newa & Hnewa & _).
  apply Forall2_length in Hallb. simpl in Hnewb.
  apply packImage_Return in Hi. destruct Hi as (Hw & Hh & ->).
  rewrite place_records, advanceRow_records in Hnewa.
  rewrite place_height in *.
  eexists. split; [exact Hb|]. split; [now apply packImage_Return|].
  split.
  - rewrite Hnewa, <- app_assoc, nth_error_app2 by (rewrite Hnewb; lia).
    rewrite Hnewb, Hallb, Nat.sub_diag. reflexivity.
  - simpl. repeat split; try assumption; reflexivity.
Qed.

Lemma records_top_left_y_nondecreasing_witness :
  planPacking exampleImages
  = Return {| TextureAtlasPlan.width := 4050;
              TextureAtlasPlan.height := 50;
              TextureAtlasPlan.records :=
                [rec 0 0 100 50; rec 100 0 100 50; rec 0 50 4050 50] |}
  /\ forall i j ri rj,
       (i <= j)%nat ->
       nth_error [rec 0 0 100 50; rec 100 0 100 50; rec 0 50 4050 50] i
       = Some ri ->
       nth_error [rec 0 0 100 50; rec 100 0 100 50; rec 0 50 4050 50] j
       = Some rj ->
       ry ri <= ry rj.
Proof.
  assert (H : planPacking exampleImages
              = Return {| TextureAtlasPlan.width := 4050;
                          TextureAtlasPlan.height := 50;
                          TextureAtlasPlan.records :=
                            [rec 0 0 100 50; rec 100 0 100 50;
                             rec 0 50 4050 50] |}) by reflexivity.
  split; [exact H|].
  exact (proj1 (records_top_left_y_nondecreasing _ _ H)).
Defined.

(** C9. An image exactly [MAX_DIMENSION] wide passes the width check,
    whatever the locals; alone, and no higher than [MAX_DIMENSION], it
    is packed; and in every returned plan a record that wide sits at
    [top_left_x = 0]. *)
Theorem full_width_image_is_placed_at_left_edge :
  (forall st image,
      iw image = MAX_DIMENSION -> packImage st image <> Throw width_exceeded)
  /\ (forall h,
         h <= MAX_DIMENSION ->
         planPacking [img MAX_DIMENSION h]
         = Return {| TextureAtlasPlan.width := MAX_DIMENSION;
                     TextureAtlasPlan.height := 0;
                     TextureAtlasPlan.records := [rec 0 0 MAX_DIMENSION h] |})
  /\ (forall images p r,
         planPacking images = Return p ->
         In r (TextureAtlasPlan.records p) ->
         rw r = MAX_DIMENSION ->
         rx r = 0).
Proof.
  split; [|split].
  - intros st image Hw H. apply packImage_Throw in H.
    destruct H as [(H & _) | (_ & _ & H)]; [lia | discriminate].
  - intros h Hh.
    assert (Hstep : packImage initial (img MAX_DIMENSION h)
                    = Return (place (advanceRow initial (img MAX_DIMENSION h))
                                (img MAX_DIMENSION h))).
    { apply packImage_Return. split; [reflexivity|]. split; [exact Hh|].
      reflexivity. }
    unfold planPacking. cbn [packLoop]. rewrite Hstep. reflexivity.
  - intros images p r H Hin Hw.
    destruct (planPacking_bounds _ _ H) as (Hpw & _ & Hright).
    specialize (Hright r Hin). unfold right in Hright. lia.
Qed.

Lemma full_width_image_is_placed_at_left_edge_witness :
  planPacking [img 100 50; img 4096 20]
  = Return {| TextureAtlasPlan.width := 4096;
              TextureAtlasPlan.height := 50;
              TextureAtlasPlan.records :=
                [rec 0 0 100 50; rec 0 50 4096 20] |}
  /\ In (rec 0 50 4096 20) [rec 0 0 100 50; rec 0 50 4096 20]
  /\ rw (rec 0 50 4096 20) = MAX_DIMENSION
  /\ rx (rec 0 50 4096 20) = 0.
Proof.
  assert (H : planPacking [img 100 50; img 4096 20]
              = Return {| TextureAtlasPlan.width := 4096;
                          TextureAtlasPlan.height := 50;
                          TextureAtlasPlan.records :=
                            [rec 0 0 100 50; rec 0 50 4096 20] |})
    by reflexivity.
  assert (Hin : In (rec 0 50 4096 20) [rec 0 0 100 50; rec 0 50 4096 20])
    by (right; left; reflexivity).
  assert (Hw : rw (rec 0 50 4096 20) = MAX_DIMENSION) by reflexivity.
  split; [exact H|]. split; [exact Hin|]. split; [exact Hw|].
  exact (proj2 (proj2 full_width_image_is_placed_at_left_edge)
           _ _ _ H Hin Hw).
Defined.

(** C10. The canvas [packCanvas] builds is exactly [plan.width] by
    [plan.height].  For a non-empty input that [planPacking] accepts and
    whose images all have positive height, and with a 2d context at
    hand, [packCanvas] returns; the final row is not empty; every record
    of the final row (the last records of the plan) ends strictly below
    [plan.height] and so does not lie inside the canvas; and there is
    such a record. *)
Theorem canvas_does_not_contain_final_row :
  (forall p has_context images c,
      packCanvas p has_context images = Return c ->
      HTMLCanvasElement.width c = TextureAtlasPlan.width p
      /\ HTMLCanvasElement.height c = TextureAtlasPlan.height p)
  /\ (forall images p,
         planPacking images = Return p ->
         images <> [] ->
         Forall (fun image => 0 < ih image) images ->
         exists c,
           packCanvas p true images = Return c
           /\ finalRow images <> []
           /\ (forall k r,
                  (length images - length (finalRow images) <= k)%nat ->
                  nth_error (TextureAtlasPlan.records p) k = Some r ->
                  TextureAtlasPlan.height p < bottom r /\ ~ inside r c)
           /\ (exists r, In r (TextureAtlasPlan.records p)
                         /\ TextureAtlasPlan.height p < bottom r
                         /\ ~ inside r c)).
Proof.
  split.
  - intros p has_context images c H. unfold packCanvas in H.
    destruct has_context; [|discriminate].
    apply drawLoop_size in H. exact H.
  - intros images p H Hne Hpos.
    pose proof (planPacking_sameSize _ _ H) as Hsame.
    pose proof (Forall2_length Hsame) as Hlen.
    apply planPacking_Return in H. destruct H as (st & Hrun & ->).
    destruct (drawLoop_returns (recs st) images 0
                {| HTMLCanvasElement.width := pw st;
                   HTMLCanvasElement.height := ph st;
                   HTMLCanvasElement.drawn := [] |}) as (c & Hc);
      [simpl; lia|].
    exists c. split; [exact Hc|].
    destruct (drawLoop_size _ _ _ _ _ Hc) as (_ & Hch). simpl in Hch.
    assert (Hfinal : finalRow images <> []).
    { apply shelves_final_nonempty. now right. }
    assert (Hfr : (length (finalRow images) <= length (recs st))%nat
                  /\ forall k r,
                       (length (recs st) - length (finalRow images) <= k)%nat ->
                       nth_error (recs st) k = Some r -> ry r = ph st).
    { apply (packLoop_final_row images initial [] st);
        [simpl; lia | intros k r _ Hr; now destruct k | exact Hrun]. }
    destruct Hfr as (Hfl & Hrow).
    assert (Hcut : forall k r,
               (length images - length (finalRow images) <= k)%nat ->
               nth_error (recs st) k = Some r ->
               ph st < bottom r /\ ~ inside r c).
    { intros k r Hk Hr.
      assert (Hy : ry r = ph st) by (apply (Hrow k r); [lia | exact Hr]).
      assert (Hh : 0 < rh r).
      { eapply sameSize_positive; eauto. eapply nth_error_In; eauto. }
      assert (Hb : ph st < bottom r) by (unfold bottom; lia).
      split; [exact Hb|]. unfold inside. lia. }
    split; [exact Hfinal|]. split; [exact Hcut|].
    destruct (nth_error (recs st) (length images - 1)) as [r|] eqn:Hr.
    + exists r. split; [eapply nth_error_In; eauto|].
      apply (Hcut (length images - 1)%nat); [|exact Hr].
      destruct (finalRow images); [congruence | simpl; lia].
    + apply nth_error_None in Hr. destruct images; [congruence|].
      simpl in *. lia.
Qed.

Lemma canvas_does_not_contain_final_row_witness :
  planPacking exampleImages
  = Return {| TextureAtlasPlan.width := 4050;
              TextureAtlasPlan.height := 50;
              TextureAtlasPlan.records :=
                [rec 0 0 100 50; rec 100 0 100 50; rec 0 50 4050 50] |}
  /\ exampleImages <> []
  /\ Forall (fun image => 0 < ih image) exampleImages
  /\ exists c,
       packCanvas {| TextureAtlasPlan.width := 4050;
                     TextureAtlasPlan.height := 50;
                     TextureAtlasPlan.records :=
                       [rec 0 0 100 50; rec 100 0 100 50; rec 0 50 4050 50] |}
         true exampleImages = Return c
       /\ exists r, In r [rec 0 0 100 50; rec 100 0 100 50; rec 0 50 4050 50]
                    /\ 50 < bottom r /\ ~ inside r c.
Proof.
  assert (H : planPacking exampleImages
              = Return {| TextureAtlasPlan.width := 4050;
                          TextureAtlasPlan.height := 50;
                          TextureAtlasPlan.records :=
                            [rec 0 0 100 50; rec 100 0 100 50;
                             rec 0 50 4050 50] |}) by reflexivity.
  assert (Hne : exampleImages <> []) by discriminate.
  assert (Hpos : Forall (fun image => 0 < ih image) exampleImages)
    by (repeat constructor).
  split; [exact H|]. split; [exact Hne|]. split; [exact Hpos|].
  destruct (proj2 canvas_does_not_contain_final_row _ _ H Hne Hpos)
    as (c & Hc & _ & _ & Hr).
  exists c. split; [exact Hc | exact Hr].
Defined.

(* ================================================================== *)
(** ** Properties of the frame loop                                   *)
(* ================================================================== *)

Section FrameLoop.

Import Game.

Context {M E : Type} (game : Game.t M E).

Local Abbreviation input := (doInputProcessing (inputManager game)).
Local Abbreviation update := (doUpdateGameState (gameStateManager game)).
Local Abbreviation render := (doRender (displayManager game)).
Local Abbreviation init := (initialize (displayManager game)).

Ltac run_main :=
  unfold main, bind, tryCatch, invoke, requestAnimationFrame,
    consoleError, emit; cbn [managers callbacks trace].

(** One tick in which the input phase throws. *)
Lemma main_input_throws w h e :
  input (managers w) = (h, Throw e) ->
  main game w
  = ({| managers := h;
        callbacks := callbacks w ++ [main_closure];
        trace := trace w
                 ++ [RequestAnimationFrame; DoInputProcessing;
                     ConsoleError e] |}, Return tt).
Proof.
  intros H. run_main. rewrite H. cbn [managers callbacks trace].
  now rewrite <- !app_assoc.
Qed.

(** One tick in which the state update throws. *)
Lemma main_update_throws w h1 h2 e :
  input (managers w) = (h1, Return tt) ->
  update h1 = (h2, Throw e) ->
  main game w
  = ({| managers := h2;
        callbacks := callbacks w ++ [main_closure];
        trace := trace w
                 ++ [RequestAnimationFrame; DoInputProcessing;
                     DoUpdateGameState; ConsoleError e] |}, Return tt).
Proof.
  intros H1 H2. run_main. rewrite H1. cbn [managers callbacks trace].
  rewrite H2. cbn [managers callbacks trace].
  now rewrite <- !app_assoc.
Qed.

(** One tick in which rendering throws. *)
Lemma main_render_throws w h1 h2 h3 e :
  input (managers w) = (h1, Return tt) ->
  update h1 = (h2, Return tt) ->
  render h2 = (h3, Throw e) ->
  main game w
  = ({| managers := h3;
        callbacks := callbacks w ++ [main_closure];
        trace := trace w
                 ++ [RequestAnimationFrame; DoInputProcessing;
                     DoUpdateGameState; DoRender; ConsoleError e] |},
     Return tt).
Proof.
  intros H1 H2 H3. run_main. rewrite H1. cbn [managers callbacks trace].
  rewrite H2. cbn [managers callbacks trace].
  rewrite H3. cbn [managers callbacks trace].
  now rewrite <- !app_assoc.
Qed.

(** One tick in which no phase throws. *)
Lemma main_all_return w h1 h2 h3 :
  input (managers w) = (h1, Return tt) ->
  update h1 = (h2, Return tt) ->
  render h2 = (h3, Return tt) ->
  main game w
  = ({| managers := h3;
        callbacks := callbacks w ++ [main_closure];
        trace := trace w
                 ++ [RequestAnimationFrame; DoInputProcessing;
                     DoUpdateGameState; DoRender] |}, Return tt).
Proof.
  intros H1 H2 H3. run_main. rewrite H1. cbn [managers callbacks trace].
  rewrite H2. cbn [managers callbacks trace].
  rewrite H3. cbn [managers callbacks trace].
  now rewrite <- !app_assoc.
Qed.

(** Whatever the phases do, [main] returns and has queued itself. *)
Lemma main_returns w :
  snd (main game w) = Return tt
  /\ callbacks (fst (main game w)) = callbacks w ++ [main_closure].
Proof.
  destruct (input (managers w)) as [h1 [[]|e1]] eqn:H1.
  - destruct (update h1) as [h2 [[]|e2]] eqn:H2.
    + destruct (render h2) as [h3 [[]|e3]] eqn:H3.
      * rewrite (main_all_return _ _ _ _ H1 H2 H3). auto.
      * rewrite (main_render_throws _ _ _ _ _ H1 H2 H3). auto.
    + rewrite (main_update_throws _ _ _ _ H1 H2). auto.
  - rewrite (main_input_throws _ _ _ H1). auto.
Qed.

(** With the loop running, a display refresh is one call of [main]. *)
Lemma animationFrame_running w :
  callbacks w = [main_closure] ->
  animationFrame game w = fst (main game (refreshed w)).
Proof. intros H. unfold animationFrame. rewrite H. reflexivity. Qed.

Lemma animationFrame_stays_running w :
  callbacks w = [main_closure] ->
  callbacks (animationFrame game w) = [main_closure].
Proof.
  intros H. rewrite (animationFrame_running _ H).
  now rewrite (proj2 (main_returns _)).
Qed.

(** [start()] is the initialization attempt followed by the first
    call of [main]. *)
Lemma start_unfold w0 : start game w0 = main game (initialised game w0).
Proof.
  unfold start, doMainLoop, bind, tryCatch, invoke, consoleError, emit,
    initialised.
  destruct (init (managers w0)) as [h [[]|e]]; reflexivity.
Qed.

Lemma start_running w0 :
  snd (start game w0) = Return tt
  /\ callbacks (fst (start game w0)) = callbacks w0 ++ [main_closure].
Proof.
  rewrite start_unfold.
  destruct (main_returns (initialised game w0)) as [Hr Hc].
  split; [exact Hr|]. rewrite Hc. unfold initialised.
  destruct (init (managers w0)) as [h [[]|e]]; reflexivity.
Qed.

Lemma afterTicks_running n w0 :
  callbacks w0 = [] ->
  callbacks (afterTicks game n w0) = [main_closure].
Proof.
  intros H0. unfold afterTicks. induction n as [|n IH]; simpl.
  - rewrite (proj2 (start_running w0)), H0. reflexivity.
  - now apply animationFrame_stays_running.
Qed.

Lemma afterTicks_main n w0 :
  callbacks w0 = [] ->
  afterTicks game n w0 = fst (main game (tickEntry game n w0)).
Proof.
  intros H0. destruct n as [|n].
  - unfold afterTicks. simpl. now rewrite start_unfold.
  - change (afterTicks game (S n) w0)
      with (animationFrame game (afterTicks game n w0)).
    apply animationFrame_running. now apply afterTicks_running.
Qed.

(** C6. Take any tick of the loop (tick [n + 1], entered in world
    [w]).  Its call of [main] returns, whatever the phases do: nothing
    they throw gets out.  When input processing throws, neither the
    state update nor rendering is entered and the thrown value is
    logged; when the state update throws, rendering is not entered
    and the value is logged; when rendering throws, the value is
    logged.  In every case [main] is queued again, the next display
    refresh runs it, and when no phase of that next tick throws it
    enters input processing, state update and rendering, in this
    order. *)
Theorem frame_loop_contains_phase_failures (w0 : World M E) (n : nat) :
  callbacks w0 = [] ->
  let w := tickEntry game n w0 in
  let w' := afterTicks game n w0 in
  let w'' := afterTicks game (S n) w0 in
  main game w = (w', Return tt)
  /\ callbacks w' = [main_closure]
  /\ (forall h e,
        input (managers w) = (h, Throw e) ->
        trace w' = trace w ++ [RequestAnimationFrame; DoInputProcessing;
                               ConsoleError e])
  /\ (forall h1 h2 e,
        input (managers w) = (h1, Return tt) ->
        update h1 = (h2, Throw e) ->
        trace w' = trace w ++ [RequestAnimationFrame; DoInputProcessing;
                               DoUpdateGameState; ConsoleError e])
  /\ (forall h1 h2 h3 e,
        input (managers w) = (h1, Return tt) ->
        update h1 = (h2, Return tt) ->
        render h2 = (h3, Throw e) ->
        trace w' = trace w ++ [RequestAnimationFrame; DoInputProcessing;
                               DoUpdateGameState; DoRender; ConsoleError e])
  /\ w'' = animationFrame game w'
  /\ callbacks w'' = [main_closure]
  /\ (forall h1 h2 h3,
        input (managers w') = (h1, Return tt) ->
        update h1 = (h2, Return tt) ->
        render h2 = (h3, Return tt) ->
        trace w'' = trace w' ++ [RequestAnimationFrame; DoInputProcessing;
                                 DoUpdateGameState; DoRender]).
Proof.
  intros H0 w w' w''.
  assert (Hw' : w' = fst (main game w)) by now apply afterTicks_main.
  assert (Hw'' : w'' = fst (main game (refreshed w')))
    by now apply (afterTicks_main (S n)).
  split.
  { rewrite Hw'. destruct (main_returns w) as [Hr _].
    destruct (main game w) as [x r]. simpl in *. now subst r. }
  split; [now apply afterTicks_running|].
  split; [intros h e H1; rewrite Hw', (main_input_throws _ _ _ H1);
          reflexivity|].
  split; [intros h1 h2 e H1 H2;
          rewrite Hw', (main_update_throws _ _ _ _ H1 H2); reflexivity|].
  split; [intros h1 h2 h3 e H1 H2 H3;
          rewrite Hw', (main_render_throws _ _ _ _ _ H1 H2 H3);
          reflexivity|].
  split; [reflexivity|].
  split; [now apply (afterTicks_running (S n))|].
  intros h1 h2 h3 H1 H2 H3.
  rewrite Hw''. rewrite (main_all_return (refreshed w') _ _ _ H1 H2 H3).
  reflexivity.
Qed.

(** C7. When [displayManager.initialize()] throws, [start()] logs the
    thrown value and goes on to the main loop: [start()] returns, the
    first tick has requested the next animation frame and entered
    input processing, and [main] is queued for the next display
    refresh. *)
Theorem start_survives_initialize_failure (w0 : World M E) (h : M) (e : E) :
  init (managers w0) = (h, Throw e) ->
  exists w1 rest,
    start game w0 = (w1, Return tt)
    /\ callbacks w1 = callbacks w0 ++ [main_closure]
    /\ trace w1 = trace w0
                  ++ [Initialize; ConsoleError e;
                      RequestAnimationFrame; DoInputProcessing]
                  ++ rest.
Proof.
  intros Hinit.
  assert (Hi : initialised game w0
               = {| managers := h; callbacks := callbacks w0;
                    trace := (trace w0 ++ [Initialize])
                             ++ [ConsoleError e] |}).
  { unfold initialised. now rewrite Hinit. }
  destruct (start_running w0) as [Hr Hc].
  exists (fst (start game w0)).
  assert (Ht : exists rest,
             trace (fst (main game (initialised game w0)))
             = trace (initialised game w0)
               ++ [RequestAnimationFrame; DoInputProcessing] ++ rest).
  { set (w := initialised game w0).
    destruct (input (managers w)) as [h1 [[]|e1]] eqn:H1.
    - destruct (update h1) as [h2 [[]|e2]] eqn:H2.
      + destruct (render h2) as [h3 [[]|e3]] eqn:H3.
        * rewrite (main_all_return _ _ _ _ H1 H2 H3). simpl. eauto.
        * rewrite (main_render_throws _ _ _ _ _ H1 H2 H3). simpl. eauto.
      + rewrite (main_update_throws _ _ _ _ H1 H2). simpl. eauto.
    - rewrite (main_input_throws _ _ _ H1). simpl. eauto. }
  destruct Ht as (rest & Ht). exists rest.
  split; [|split].
  - destruct (start game w0) as [x r]. simpl in *. now subst r.
  - exact Hc.
  - rewrite start_unfold, Ht, Hi. cbn [trace].
    now rewrite <- !app_assoc.
Qed.

End FrameLoop.

(** The run of [Game.sampleGame]: display initialization throws, and so
    does the state update of tick 3. *)
Lemma frame_loop_contains_phase_failures_witness :
  Game.callbacks Game.sampleWorld = []
  /\ Game.trace (Game.afterTicks Game.sampleGame 2 Game.sampleWorld)
     = Game.trace (Game.tickEntry Game.sampleGame 2 Game.sampleWorld)
       ++ [RequestAnimationFrame; DoInputProcessing; DoUpdateGameState;
           ConsoleError "bad state"%string]
  /\ Game.trace (Game.afterTicks Game.sampleGame 3 Game.sampleWorld)
     = Game.trace (Game.afterTicks Game.sampleGame 2 Game.sampleWorld)
       ++ [RequestAnimationFrame; DoInputProcessing; DoUpdateGameState;
           DoRender].
Proof.
  assert (H0 : Game.callbacks Game.sampleWorld = []) by reflexivity.
  pose proof (frame_loop_contains_phase_failures
                Game.sampleGame Game.sampleWorld 2 H0)
    as (_ & _ & _ & Hupdate & _ & _ & _ & Hnext).
  split; [exact H0|]. split.
  - exact (Hupdate 3%nat 3%nat "bad state"%string eq_refl eq_refl).
  - exact (Hnext 4%nat 4%nat 4%nat eq_refl eq_refl eq_refl).
Defined.

Lemma start_survives_initialize_failure_witness :
  initialize (Game.displayManager Game.sampleGame)
    (Game.managers Game.sampleWorld)
  = (0%nat, Throw "WebGL2 is not supported"%string)
  /\ exists w1 rest,
       Game.start Game.sampleGame Game.sampleWorld = (w1, Return tt)
       /\ Game.callbacks w1
          = Game.callbacks Game.sampleWorld ++ [main_closure]
       /\ Game.trace w1
          = Game.trace Game.sampleWorld
            ++ [Initialize; ConsoleError "WebGL2 is not supported"%string;
                RequestAnimationFrame; DoInputProcessing]
            ++ rest.
Proof.
  split; [reflexivity|].
  exact (start_survives_initialize_failure
           Game.sampleGame Game.sampleWorld 0%nat
           "WebGL2 is not supported"%string eq_refl).
Defined.

(* ================================================================== *)
(** ** Further properties of [planPacking]                            *)
(* ================================================================== *)

Lemma rowWidth_snoc row image :
  rowWidth (row ++ [image]) = rowWidth row + iw image.
Proof.
  unfold rowWidth. induction row as [|a row IH]; cbn [app map].
  - rewrite !sumN_cons. apply N.add_comm.
  - rewrite !sumN_cons, IH. lia.
Qed.

Lemma rowWidth_single image : rowWidth [image] = iw image.
Proof. unfold rowWidth. cbn [map]. rewrite sumN_cons. apply N.add_0_r. Qed.

Lemma layoutRow_snoc y row image : forall x,
  layoutRow y x (row ++ [image])
  = layoutRow y x row ++ [rec (x + rowWidth row) y (iw image) (ih image)].
Proof.
  induction row as [|a row IH]; intros x; cbn [app layoutRow].
  - unfold rowWidth. cbn [map sumN fold_right]. now rewrite N.add_0_r.
  - rewrite IH. unfold rowWidth. cbn [map]. rewrite sumN_cons.
    now rewrite N.add_assoc.
Qed.

(** The loop lays the images out as shelf packing does, continuing the
    row in progress. *)
Lemma packLoop_layout images : forall st row st',
  rowWidth row = current_x st ->
  rowHeight row = current_row_height st ->
  packLoop st images = Return st' ->
  exists new,
    recs st' = recs st ++ new
    /\ layoutRow (ph st) 0 row ++ new
       = layoutRows (ph st)
           (fst (shelves (current_x st) row images)
            ++ [snd (shelves (current_x st) row images)]).
Proof.
  induction images as [|image rest IH]; intros st row st' Hx Hh Hrun.
  - simpl in *. injection Hrun as <-. exists [].
    now rewrite !app_nil_r.
  - simpl in Hrun.
    destruct (packImage st image) as [st1|e] eqn:Hi; [|discriminate].
    apply packImage_Return in Hi. destruct Hi as (_ & _ & ->).
    rewrite shelves_cons. unfold advanceRow, wraps in Hrun.
    destruct (MAX_DIMENSION <? current_x st + iw image).
    + apply (IH _ [image]) in Hrun;
        [| rewrite place_current_x, rowWidth_single; reflexivity
         | rewrite place_row_height, rowHeight_single;
           cbn [current_row_height]; lia].
      destruct Hrun as (new & Hnew & Hlay).
      rewrite place_records, place_height, place_current_x in *.
      cbn [current_x plan TextureAtlasPlan.height
             TextureAtlasPlan.records] in *.
      rewrite N.add_0_l in *.
      exists (rec 0 (ph st + current_row_height st) (iw image) (ih image)
              :: new).
      split; [now rewrite Hnew, <- app_assoc|].
      cbn [fst snd app layoutRows]. rewrite Hh, <- Hlay. reflexivity.
    + apply (IH _ (row ++ [image])) in Hrun;
        [| rewrite place_current_x, rowWidth_snoc; lia
         | rewrite place_row_height, rowHeight_snoc; lia].
      destruct Hrun as (new & Hnew & Hlay).
      rewrite place_records, place_height, place_current_x in *.
      exists (rec (current_x st) (ph st) (iw image) (ih image) :: new).
      split; [now rewrite Hnew, <- app_assoc|].
      rewrite <- Hlay, layoutRow_snoc, N.add_0_l, Hx, <- app_assoc.
      reflexivity.
Qed.

(** X1. The records of a returned plan are exactly the shelf layout of
    the images: the rows lie one below the other from y = 0, each row
    as high as its tallest image, and within a row the images lie side
    by side from x = 0, in input order. *)
Theorem planPacking_records_are_shelf_layout
    (images : list HTMLImageElement.t) (p : TextureAtlasPlan.t) :
  planPacking images = Return p ->
  TextureAtlasPlan.records p = layoutRows 0 (allRows images).
Proof.
  intros H. apply planPacking_Return in H. destruct H as (st & Hrun & ->).
  destruct (packLoop_layout images initial [] st eq_refl eq_refl Hrun)
    as (new & Hnew & Hlay).
  simpl in Hnew, Hlay. rewrite Hnew. exact Hlay.
Qed.

Lemma planPacking_records_are_shelf_layout_witness :
  planPacking exampleImages
  = Return {| TextureAtlasPlan.width := 4050;
              TextureAtlasPlan.height := 50;
              TextureAtlasPlan.records :=
                [rec 0 0 100 50; rec 100 0 100 50; rec 0 50 4050 50] |}
  /\ [rec 0 0 100 50; rec 100 0 100 50; rec 0 50 4050 50]
     = layoutRows 0 (allRows exampleImages).
Proof.
  assert (H : planPacking exampleImages
              = Return {| TextureAtlasPlan.width := 4050;
                          TextureAtlasPlan.height := 50;
                          TextureAtlasPlan.records :=
                            [rec 0 0 100 50; rec 100 0 100 50;
                             rec 0 50 4050 50] |}) by reflexivity.
  split; [exact H|].
  exact (planPacking_records_are_shelf_layout _ _ H).
Defined.

Lemma maxN_cons a l : maxN (a :: l) = N.max a (maxN l).
Proof. reflexivity. Qed.

Lemma shelvesWidth_ge images : forall x row,
  rowWidth row
  <= maxN (map rowWidth (fst (shelves x row images)
                         ++ [snd (shelves x row images)])).
Proof.
  induction images as [|image rest IH]; intros x row.
  - cbn [shelves fst snd app map]. rewrite maxN_cons. lia.
  - rewrite shelves_cons. destruct (MAX_DIMENSION <? x + iw image).
    + cbn [fst snd app map]. rewrite maxN_cons. lia.
    + specialize (IH (x + iw image) (row ++ [image])).
      rewrite rowWidth_snoc in IH. lia.
Qed.

(** The plan grows as wide as the widest shelf. *)
Lemma packLoop_width images : forall st row st',
  rowWidth row = current_x st ->
  current_x st <= pw st ->
  packLoop st images = Return st' ->
  pw st'
  = N.max (pw st)
      (maxN (map rowWidth (fst (shelves (current_x st) row images)
                           ++ [snd (shelves (current_x st) row images)]))).
Proof.
  induction images as [|image rest IH]; intros st row st' Hx Hle Hrun.
  - cbn [packLoop] in Hrun. injection Hrun as <-.
    cbn [shelves fst snd app map]. rewrite maxN_cons.
    unfold maxN. cbn [fold_right]. lia.
  - simpl in Hrun.
    destruct (packImage st image) as [st1|e] eqn:Hi; [|discriminate].
    apply packImage_Return in Hi. destruct Hi as (_ & _ & ->).
    rewrite shelves_cons. unfold advanceRow, wraps in Hrun.
    destruct (MAX_DIMENSION <? current_x st + iw image).
    + apply (IH _ [image]) in Hrun;
        [| rewrite place_current_x, rowWidth_single; reflexivity
         | rewrite place_current_x, place_width; lia].
      rewrite place_width, place_current_x in Hrun.
      cbn [current_x plan TextureAtlasPlan.width] in Hrun.
      rewrite N.add_0_l in Hrun.
      pose proof (shelvesWidth_ge rest (iw image) [image]) as G.
      rewrite rowWidth_single in G.
      cbn [fst snd app map]. rewrite maxN_cons. lia.
    + apply (IH _ (row ++ [image])) in Hrun;
        [| rewrite place_current_x, rowWidth_snoc; lia
         | rewrite place_current_x, place_width; lia].
      rewrite place_width, place_current_x in Hrun.
      pose proof (shelvesWidth_ge rest (current_x st + iw image)
                    (row ++ [image])) as G.
      rewrite rowWidth_snoc in G. lia.
Qed.

(** X2. The width of a returned plan is the filled width of its widest
    row, where the filled width of a row is the sum of the widths of
    its images. *)
Theorem plan_width_is_widest_row
    (images : list HTMLImageElement.t) (p : TextureAtlasPlan.t) :
  planPacking images = Return p ->
  TextureAtlasPlan.width p = maxN (map rowWidth (allRows images)).
Proof.
  intros H. apply planPacking_Return in H. destruct H as (st & Hrun & ->).
  rewrite (packLoop_width images initial [] st eq_refl (N.le_refl _) Hrun).
  simpl. unfold allRows, completedRows, finalRow. lia.
Qed.

Lemma plan_width_is_widest_row_witness :
  planPacking exampleImages
  = Return {| TextureAtlasPlan.width := 4050;
              TextureAtlasPlan.height := 50;
              TextureAtlasPlan.records :=
                [rec 0 0 100 50; rec 100 0 100 50; rec 0 50 4050 50] |}
  /\ 4050 = maxN (map rowWidth (allRows exampleImages)).
Proof.
  assert (H : planPacking exampleImages
              = Return {| TextureAtlasPlan.width := 4050;
                          TextureAtlasPlan.height := 50;
                          TextureAtlasPlan.records :=
                            [rec 0 0 100 50; rec 100 0 100 50;
                             rec 0 50 4050 50] |}) by reflexivity.
  split; [exact H|].
  exact (plan_width_is_widest_row _ _ H).
Defined.

Lemma packLoop_widths images : forall st st',
  packLoop st images = Return st' ->
  Forall (fun image => iw image <= MAX_DIMENSION) images.
Proof.
  induction images as [|image rest IH]; intros st st' Hrun.
  - constructor.
  - simpl in Hrun.
    destruct (packImage st image) as [st1|e] eqn:Hi; [|discriminate].
    apply packImage_Return in Hi. destruct Hi as (Hw & _ & _).
    constructor; [exact Hw | eauto].
Qed.

(** X3. [planPacking] returns exactly for the inputs in which every
    image is at most [MAX_DIMENSION] wide and the rows together, the
    final row included, are at most [MAX_DIMENSION] high. *)
Theorem planPacking_returns_iff (images : list HTMLImageElement.t) :
  (exists p, planPacking images = Return p)
  <-> Forall (fun image => iw image <= MAX_DIMENSION) images
      /\ totalPackedHeight images <= MAX_DIMENSION.
Proof.
  split.
  - intros (p & H). split.
    + apply planPacking_Return in H. destruct H as (st & Hrun & _).
      eapply packLoop_widths. eassumption.
    + eapply planPacking_total_height. eassumption.
  - intros (Hw & Hh).
    destruct (packLoop_succeeds images initial [] eq_refl Hw Hh)
      as (st & Hrun).
    exists (plan st). apply planPacking_Return. eauto.
Qed.

(** X4. In a returned plan every record ends at or left of
    [MAX_DIMENSION] and at or above [plan.height] plus the height of
    the final row, and that sum is itself at most [MAX_DIMENSION]: the
    records fit a [MAX_DIMENSION] square, and fall short of
    [plan.height] by no more than the final row. *)
Theorem plan_records_extent
    (images : list HTMLImageElement.t) (p : TextureAtlasPlan.t) :
  planPacking images = Return p ->
  TextureAtlasPlan.height p + rowHeight (finalRow images) <= MAX_DIMENSION
  /\ forall r, In r (TextureAtlasPlan.records p) ->
       right r <= MAX_DIMENSION
       /\ bottom r
          <= TextureAtlasPlan.height p + rowHeight (finalRow images).
Proof.
  intros H. pose proof (planPacking_bounds _ _ H) as (Hpw & _ & Hright).
  apply planPacking_Inv in H. destruct H as (st & Hrun & -> & I).
  destruct (packLoop_shelves images initial [] st eq_refl Hrun) as (_ & H2).
  fold (finalRow images) in H2.
  assert (Hf : rowHeight (finalRow images) = current_row_height st)
    by (symmetry; exact H2).
  pose proof (inv_h _ I) as Hh.
  split; [rewrite Hf; exact Hh|].
  intros r Hr. split.
  - specialize (Hright r Hr). lia.
  - rewrite Hf.
    destruct (inv_rows _ I r Hr) as [Hb | (Hy & _ & Hrh)];
      unfold bottom in *; lia.
Qed.

Lemma plan_records_extent_witness :
  planPacking exampleImages
  = Return {| TextureAtlasPlan.width := 4050;
              TextureAtlasPlan.height := 50;
              TextureAtlasPlan.records :=
                [rec 0 0 100 50; rec 100 0 100 50; rec 0 50 4050 50] |}
  /\ 50 + rowHeight (finalRow exampleImages) <= MAX_DIMENSION.
Proof.
  assert (H : planPacking exampleImages
              = Return {| TextureAtlasPlan.width := 4050;
                          TextureAtlasPlan.height := 50;
                          TextureAtlasPlan.records :=
                            [rec 0 0 100 50; rec 100 0 100 50;
                             rec 0 50 4050 50] |}) by reflexivity.
  split; [exact H|].
  exact (proj1 (plan_records_extent _ _ H)).
Defined.

Lemma packImage_width_mono st image st' :
  packImage st image = Return st' -> pw st <= pw st'.
Proof.
  intros H. apply packImage_Return in H. destruct H as (_ & _ & ->).
  rewrite place_width. unfold advanceRow.
  destruct (wraps st image); simpl; lia.
Qed.

Lemma packLoop_width_mono images st st' :
  packLoop st images = Return st' -> pw st <= pw st'.
Proof.
  apply (packLoop_invariant2 (fun a b => pw a <= pw b)).
  - intros; lia.
  - intros; lia.
  - exact packImage_width_mono.
Qed.

(** X5. Packing is incremental.  When [planPacking] returns for a
    list of images it also returns for every prefix of the list, and
    the plan of the prefix is the beginning of the plan of the whole
    list: the same records come first, and width and height are no
    larger.  Appending images never moves the images already placed. *)
Theorem planPacking_prefix
    (first more : list HTMLImageElement.t) (p : TextureAtlasPlan.t) :
  planPacking (first ++ more) = Return p ->
  exists q added,
    planPacking first = Return q
    /\ TextureAtlasPlan.records p = TextureAtlasPlan.records q ++ added
    /\ length (TextureAtlasPlan.records q) = length first
    /\ TextureAtlasPlan.width q <= TextureAtlasPlan.width p
    /\ TextureAtlasPlan.height q <= TextureAtlasPlan.height p.
Proof.
  intros H. apply planPacking_Return in H. destruct H as (st & Hrun & ->).
  rewrite packLoop_app in Hrun.
  destruct (packLoop initial first) as [st1|e] eqn:H1; [|discriminate].
  destruct (packLoop_records _ _ _ Hrun) as (added & Hadded & _).
  destruct (packLoop_records _ _ _ H1) as (new & Hnew & Hall).
  simpl in Hnew.
  exists (plan st1), added. split; [|split; [|split; [|split]]].
  - apply planPacking_Return. eauto.
  - exact Hadded.
  - rewrite Hnew. symmetry. exact (Forall2_length Hall).
  - eapply packLoop_width_mono. eassumption.
  - eapply packLoop_height_mono. eassumption.
Qed.

Lemma planPacking_prefix_witness :
  planPacking ([img 100 50; img 100 50] ++ [img 4050 50])
  = Return {| TextureAtlasPlan.width := 4050;
              TextureAtlasPlan.height := 50;
              TextureAtlasPlan.records :=
                [rec 0 0 100 50; rec 100 0 100 50; rec 0 50 4050 50] |}
  /\ exists q added,
       planPacking [img 100 50; img 100 50] = Return q
       /\ [rec 0 0 100 50; rec 100 0 100 50; rec 0 50 4050 50]
          = TextureAtlasPlan.records q ++ added
       /\ length (TextureAtlasPlan.records q) = 2%nat
       /\ TextureAtlasPlan.width q <= 4050
       /\ TextureAtlasPlan.height q <= 50.
Proof.
  assert (H : planPacking ([img 100 50; img 100 50] ++ [img 4050 50])
              = Return {| TextureAtlasPlan.width := 4050;
                          TextureAtlasPlan.height := 50;
                          TextureAtlasPlan.records :=
                            [rec 0 0 100 50; rec 100 0 100 50;
                             rec 0 50 4050 50] |}) by reflexivity.
  split; [exact H|].
  exact (planPacking_prefix _ _ _ H).
Defined.

(** Images that fit the row in progress are all placed in it. *)
Lemma packLoop_one_row images : forall st,
  current_x st + rowWidth images <= MAX_DIMENSION ->
  Forall (fun image => ph st + ih image <= MAX_DIMENSION) images ->
  exists st',
    packLoop st images = Return st'
    /\ ph st' = ph st
    /\ pw st' = N.max (pw st)
                  (match images with
                   | [] => 0
                   | _ :: _ => current_x st + rowWidth images
                   end)
    /\ recs st' = recs st ++ layoutRow (ph st) (current_x st) images.
Proof.
  induction images as [|image rest IH]; intros st Hx Hh.
  - exists st. cbn [packLoop layoutRow]. rewrite app_nil_r.
    repeat split; lia.
  - unfold rowWidth in Hx. cbn [map] in Hx. rewrite sumN_cons in Hx.
    fold (rowWidth rest) in Hx.
    inversion Hh as [|? ? Hh1 Hh2]; subst.
    assert (Hadv : advanceRow st image = st).
    { unfold advanceRow, wraps.
      destruct (N.ltb_spec MAX_DIMENSION (current_x st + iw image));
        [lia | reflexivity]. }
    assert (Hstep : packImage st image = Return (place st image)).
    { apply packImage_Return. rewrite Hadv.
      split; [lia|]. split; [exact Hh1 | reflexivity]. }
    cbn [packLoop]. rewrite Hstep.
    destruct (IH (place st image)) as (st' & Hrun & Hph & Hpw & Hrecs).
    + rewrite place_current_x. lia.
    + rewrite place_height. exact Hh2.
    + exists st'. split; [exact Hrun|].
      rewrite place_height, place_width, place_current_x, place_records
        in *.
      split; [exact Hph|]. split.
      * rewrite Hpw. unfold rowWidth at 2. cbn [map]. rewrite sumN_cons.
        fold (rowWidth rest). destruct rest as [|b rest'].
        -- unfold rowWidth. cbn [map sumN fold_right]. lia.
        -- lia.
      * rewrite Hrecs, <- app_assoc. reflexivity.
Qed.

(** X6. Images whose widths add up to at most [MAX_DIMENSION], each
    at most [MAX_DIMENSION] high, are packed in a single row: the plan
    is as wide as the images together, its records lie side by side at
    y = 0, and its height is 0. *)
Theorem planPacking_single_row (images : list HTMLImageElement.t) :
  rowWidth images <= MAX_DIMENSION ->
  Forall (fun image => ih image <= MAX_DIMENSION) images ->
  planPacking images
  = Return {| TextureAtlasPlan.width := rowWidth images;
              TextureAtlasPlan.height := 0;
              TextureAtlasPlan.records := layoutRow 0 0 images |}.
Proof.
  intros Hw Hh.
  destruct (packLoop_one_row images initial) as (st & Hrun & Hph & Hpw & Hr).
  - exact Hw.
  - exact Hh.
  - unfold planPacking. rewrite Hrun. f_equal.
    destruct st as [[w h rs] cx crh]. simpl in *. subst.
    f_equal. destruct images as [|a l]; [reflexivity|]. lia.
Qed.

Lemma planPacking_single_row_witness :
  rowWidth [img 100 50; img 200 70] <= MAX_DIMENSION
  /\ Forall (fun image => ih image <= MAX_DIMENSION) [img 100 50; img 200 70]
  /\ planPacking [img 100 50; img 200 70]
     = Return {| TextureAtlasPlan.width := rowWidth [img 100 50; img 200 70];
                 TextureAtlasPlan.height := 0;
                 TextureAtlasPlan.records :=
                   layoutRow 0 0 [img 100 50; img 200 70] |}.
Proof.
  assert (H1 : rowWidth [img 100 50; img 200 70] <= MAX_DIMENSION)
    by (vm_compute; discriminate).
  assert (H2 : Forall (fun image => ih image <= MAX_DIMENSION)
                 [img 100 50; img 200 70])
    by (repeat constructor; vm_compute; discriminate).
  split; [exact H1|]. split; [exact H2|].
  exact (planPacking_single_row _ H1 H2).
Defined.

(* ================================================================== *)
(** ** [packCanvas], [createTexture] and the constructor              *)
(* ================================================================== *)

Lemma skipn_nth_error {A} (l : list A) : forall i x,
  nth_error l i = Some x -> skipn i l = x :: skipn (S i) l.
Proof.
  induction l as [|a l IH]; intros i x H.
  - destruct i; discriminate.
  - destruct i as [|i]; simpl in H.
    + injection H as ->. reflexivity.
    + change (skipn (S i) (a :: l)) with (skipn i l).
      change (skipn (S (S i)) (a :: l)) with (skipn (S i) l).
      now apply IH.
Qed.

(** With enough records the drawing loop makes one [drawImage] call
    per image, at the top left corner of the record of the same
    index. *)
Lemma drawLoop_draws records images : forall i c,
  (i + length images <= length records)%nat ->
  drawLoop records i images c
  = Return {| HTMLCanvasElement.width := HTMLCanvasElement.width c;
              HTMLCanvasElement.height := HTMLCanvasElement.height c;
              HTMLCanvasElement.drawn :=
                HTMLCanvasElement.drawn c
                ++ map drawCall (combine images (skipn i records)) |}.
Proof.
  induction images as [|image rest IH]; intros i c Hlen.
  - destruct c. simpl. now rewrite app_nil_r.
  - cbn [drawLoop]. simpl in Hlen.
    destruct (nth_error records i) as [r|] eqn:Hr.
    + rewrite IH by lia. rewrite (skipn_nth_error _ _ _ Hr).
      cbn [combine map HTMLCanvasElement.width HTMLCanvasElement.height
             HTMLCanvasElement.drawn].
      rewrite <- app_assoc. reflexivity.
    + apply nth_error_None in Hr. lia.
Qed.

(** With too few records the loop ends in the property read of an
    [undefined] record. *)
Lemma drawLoop_short records images : forall i c,
  (length records < i + length images)%nat ->
  (i <= length records)%nat ->
  drawLoop records i images c = Throw type_error.
Proof.
  induction images as [|image rest IH]; intros i c Hlen Hi.
  - simpl in Hlen. lia.
  - cbn [drawLoop]. simpl in Hlen.
    destruct (nth_error records i) as [r|] eqn:Hr; [|reflexivity].
    assert (i < length records)%nat
      by (apply nth_error_Some; congruence).
    apply IH; lia.
Qed.

(** X7. [packCanvas] throws "Failed to get canvas context." whenever
    the canvas yields no 2d context, whatever the plan.  With a
    context and at least as many records as images it returns a canvas
    of the plan's size on which each image was drawn once, in input
    order, at the top left corner of the record of the same index.
    With fewer records than images it throws a TypeError. *)
Theorem packCanvas_draws_each_image_at_its_record :
  (forall p images, packCanvas p false images = Throw no_canvas_context)
  /\ (forall p images,
         (length images <= length (TextureAtlasPlan.records p))%nat ->
         packCanvas p true images
         = Return {| HTMLCanvasElement.width := TextureAtlasPlan.width p;
                     HTMLCanvasElement.height := TextureAtlasPlan.height p;
                     HTMLCanvasElement.drawn :=
                       map drawCall
                         (combine images (TextureAtlasPlan.records p)) |})
  /\ (forall p images,
         (length (TextureAtlasPlan.records p) < length images)%nat ->
         packCanvas p true images = Throw type_error).
Proof.
  split; [|split].
  - reflexivity.
  - intros p images Hlen. unfold packCanvas.
    rewrite drawLoop_draws by (simpl; lia). reflexivity.
  - intros p images Hlen. unfold packCanvas.
    apply drawLoop_short; simpl; lia.
Qed.

Lemma packCanvas_draws_each_image_at_its_record_witness :
  (length exampleImages
   <= length [rec 0 0 100 50; rec 100 0 100 50; rec 0 50 4050 50])%nat
  /\ packCanvas {| TextureAtlasPlan.width := 4050;
                   TextureAtlasPlan.height := 50;
                   TextureAtlasPlan.records :=
                     [rec 0 0 100 50; rec 100 0 100 50; rec 0 50 4050 50] |}
       true exampleImages
     = Return {| HTMLCanvasElement.width := 4050;
                 HTMLCanvasElement.height := 50;
                 HTMLCanvasElement.drawn :=
                   map drawCall
                     (combine exampleImages
                        [rec 0 0 100 50; rec 100 0 100 50;
                         rec 0 50 4050 50]) |}.
Proof.
  assert (H : (length exampleImages
               <= length [rec 0 0 100 50; rec 100 0 100 50;
                          rec 0 50 4050 50])%nat) by (simpl; lia).
  split; [exact H|].
  exact (proj1 (proj2 packCanvas_draws_each_image_at_its_record)
           {| TextureAtlasPlan.width := 4050;
              TextureAtlasPlan.height := 50;
              TextureAtlasPlan.records :=
                [rec 0 0 100 50; rec 100 0 100 50; rec 0 50 4050 50] |}
           exampleImages H).
Defined.

Lemma createTexture_lost gl this_texture canvas :
  WebGL2RenderingContext.contextLost gl = true ->
  createTexture gl this_texture canvas = (gl, Throw texture_failed).
Proof.
  intros H. unfold createTexture, WebGL2RenderingContext.createTexture.
  now rewrite H.
Qed.

Lemma createTexture_Return gl this_texture canvas gl' texture :
  createTexture gl this_texture canvas = (gl', Return texture) ->
  WebGL2RenderingContext.contextLost gl = false
  /\ texture = WebGL2RenderingContext.created gl
  /\ WebGL2RenderingContext.created gl'
     = S (WebGL2RenderingContext.created gl)
  /\ WebGL2RenderingContext.TEXTURE_2D_binding gl' = this_texture
  /\ match this_texture with
     | Some bound =>
         WebGL2RenderingContext.uploads gl'
         = WebGL2RenderingContext.uploads gl ++ [(bound, canvas)]
         /\ WebGL2RenderingContext.errors gl'
            = WebGL2RenderingContext.errors gl
     | None =>
         WebGL2RenderingContext.uploads gl'
         = WebGL2RenderingContext.uploads gl
         /\ WebGL2RenderingContext.errors gl'
            = WebGL2RenderingContext.errors gl ++ [INVALID_OPERATION]
     end.
Proof.
  unfold createTexture, WebGL2RenderingContext.createTexture,
    WebGL2RenderingContext.bindTexture, WebGL2RenderingContext.texImage2D.
  destruct (WebGL2RenderingContext.contextLost gl); [discriminate|].
  cbn [WebGL2RenderingContext.TEXTURE_2D_binding].
  destruct this_texture as [bound|]; intros [= <- <-]; simpl;
    repeat split; reflexivity.
Qed.

(** X8. [createTexture] throws "Failed to create atlas texture."
    exactly when the context makes no texture, and then leaves the
    context as it was.  Otherwise it returns a texture that did not
    exist before, and the canvas is not uploaded into that texture: the
    texture bound for the upload is the one held by [this._texture]
    when the method is called, so the upload goes there, or nowhere
    when the field is unassigned. *)
Theorem createTexture_does_not_fill_the_new_texture
    (gl : WebGL2RenderingContext.t) (this_texture : option WebGLTexture)
    (canvas : HTMLCanvasElement.t) :
  WebGL2RenderingContext.wellFormed gl ->
  (forall bound, this_texture = Some bound ->
                 (bound < WebGL2RenderingContext.created gl)%nat) ->
  (WebGL2RenderingContext.contextLost gl = true ->
   createTexture gl this_texture canvas = (gl, Throw texture_failed))
  /\ (WebGL2RenderingContext.contextLost gl = false ->
      exists gl',
        createTexture gl this_texture canvas
        = (gl', Return (WebGL2RenderingContext.created gl))
        /\ WebGL2RenderingContext.wellFormed gl'
        /\ WebGL2RenderingContext.TEXTURE_2D_binding gl' = this_texture
        /\ (forall source,
               ~ In (WebGL2RenderingContext.created gl, source)
                   (WebGL2RenderingContext.uploads gl'))).
Proof.
  intros [Hup Hbind] Hthis. split; [apply createTexture_lost|].
  intros Hlost.
  destruct (createTexture gl this_texture canvas) as [gl' r] eqn:Hc.
  assert (Hr : r = Return (WebGL2RenderingContext.created gl)).
  { revert Hc. unfold createTexture, WebGL2RenderingContext.createTexture.
    rewrite Hlost. now intros [= _ <-]. }
  subst r. exists gl'. split; [reflexivity|].
  destruct (createTexture_Return _ _ _ _ _ Hc)
    as (_ & _ & Hcreated & Hb & Hu).
  assert (Hold : forall texture source,
             In (texture, source) (WebGL2RenderingContext.uploads gl') ->
             (texture < WebGL2RenderingContext.created gl)%nat).
  { intros texture source Hin. destruct this_texture as [bound|].
    - destruct Hu as [Hu _]. rewrite Hu in Hin.
      apply in_app_or in Hin. destruct Hin as [Hin | [[= <- <-] | []]].
      + eauto.
      + now apply Hthis.
    - destruct Hu as [Hu _]. rewrite Hu in Hin. eauto. }
  split; [|split].
  - split.
    + intros texture source Hin. rewrite Hcreated.
      specialize (Hold _ _ Hin). lia.
    + intros texture Htex. rewrite Hb in Htex. rewrite Hcreated.
      specialize (Hthis _ Htex). lia.
  - exact Hb.
  - intros source Hin. specialize (Hold _ _ Hin). lia.
Qed.

Lemma freshContext_wellFormed : WebGL2RenderingContext.wellFormed freshContext.
Proof.
  split.
  - intros texture source [].
  - intros texture H. discriminate.
Qed.

Lemma createTexture_does_not_fill_the_new_texture_witness :
  WebGL2RenderingContext.wellFormed freshContext
  /\ WebGL2RenderingContext.contextLost freshContext = false
  /\ exists gl',
       createTexture freshContext None
         {| HTMLCanvasElement.width := 10; HTMLCanvasElement.height := 0;
            HTMLCanvasElement.drawn := [] |}
       = (gl', Return 0%nat)
       /\ WebGL2RenderingContext.wellFormed gl'
       /\ WebGL2RenderingContext.TEXTURE_2D_binding gl' = None
       /\ (forall source,
              ~ In (0%nat, source) (WebGL2RenderingContext.uploads gl')).
Proof.
  split; [exact freshContext_wellFormed|]. split; [reflexivity|].
  refine (proj2 (createTexture_does_not_fill_the_new_texture
                   freshContext None
                   {| HTMLCanvasElement.width := 10;
                      HTMLCanvasElement.height := 0;
                      HTMLCanvasElement.drawn := [] |}
                   freshContext_wellFormed _) eq_refl).
  intros bound H. discriminate.
Defined.

Lemma planPacking_Throw_kind images e :
  planPacking images = Throw e -> e = width_exceeded \/ e = height_exceeded.
Proof.
  intros H. apply planPacking_Throw, packLoop_Throw in H.
  destruct H as (before & image & after & st & _ & _ & H).
  apply packImage_Throw in H.
  destruct H as [(_ & ->) | (_ & _ & ->)]; auto.
Qed.

(** A plan made from the images has a record for each of them, so
    drawing them ends normally when there is a context. *)
Lemma packCanvas_after_planPacking images p :
  planPacking images = Return p ->
  packCanvas p true images
  = Return {| HTMLCanvasElement.width := TextureAtlasPlan.width p;
              HTMLCanvasElement.height := TextureAtlasPlan.height p;
              HTMLCanvasElement.drawn :=
                map drawCall (combine images (TextureAtlasPlan.records p)) |}.
Proof.
  intros H. pose proof (Forall2_length (planPacking_sameSize _ _ H)) as Hlen.
  unfold packCanvas. rewrite drawLoop_draws by (simpl; lia). reflexivity.
Qed.

(** X9. [new TextureAtlas(gl, images)] returns exactly when
    [planPacking] returns for the images, the canvas yields a 2d
    context and the GL context makes a texture.  The atlas then holds
    the plan of [planPacking] and a texture made by this call. *)
Theorem constructor_returns_iff
    (gl : WebGL2RenderingContext.t) (has_context : bool)
    (images : list HTMLImageElement.t) :
  ((exists gl' atlas, constructor gl has_context images = (gl', Return atlas))
   <-> (exists p, planPacking images = Return p)
       /\ has_context = true
       /\ WebGL2RenderingContext.contextLost gl = false)
  /\ (forall gl' atlas,
         constructor gl has_context images = (gl', Return atlas) ->
         planPacking images = Return (_plan atlas)
         /\ _texture atlas = WebGL2RenderingContext.created gl
         /\ WebGL2RenderingContext.created gl'
            = S (WebGL2RenderingContext.created gl)).
Proof.
  unfold constructor.
  destruct (planPacking images) as [p|e] eqn:Hp.
  - destruct has_context.
    + rewrite (packCanvas_after_planPacking _ _ Hp).
      match goal with
      | |- context [createTexture gl None ?c] =>
          destruct (createTexture gl None c) as [gl1 [texture|e]] eqn:Hc
      end.
      * destruct (createTexture_Return _ _ _ _ _ Hc)
          as (Hlost & Htex & Hcreated & _).
        split.
        -- split; [intros _; eauto | intros _; eauto].
        -- intros gl' atlas [= <- <-]. simpl. auto.
      * split.
        -- split.
           ++ intros (gl' & atlas & [=]).
           ++ intros (_ & _ & Hlost). revert Hc.
              unfold createTexture, WebGL2RenderingContext.createTexture.
              rewrite Hlost. discriminate.
        -- intros gl' atlas [=].
    + unfold packCanvas. split.
      * split; [intros (gl' & atlas & [=]) | intros (_ & [=] & _)].
      * intros gl' atlas [=].
  - split.
    + split; [intros (gl' & atlas & [=]) | intros ((p & [=]) & _)].
    + intros gl' atlas [=].
Qed.

(** X10. A construction that throws leaves the GL context as it was,
    and what it throws is one of the four errors of the class, never a
    TypeError from drawing.  An error of [planPacking] comes first,
    whatever the canvas and the GL context; then the missing 2d
    context. *)
Theorem constructor_failure_leaves_context_untouched :
  (forall gl has_context images gl' e,
      constructor gl has_context images = (gl', Throw e) ->
      gl' = gl
      /\ (e = width_exceeded \/ e = height_exceeded
          \/ e = no_canvas_context \/ e = texture_failed))
  /\ (forall gl has_context images e,
         planPacking images = Throw e ->
         constructor gl has_context images = (gl, Throw e))
  /\ (forall gl images p,
         planPacking images = Return p ->
         constructor gl false images = (gl, Throw no_canvas_context)).
Proof.
  split; [|split].
  - intros gl has_context images gl' e. unfold constructor.
    destruct (planPacking images) as [p|e0] eqn:Hp.
    + destruct has_context.
      * rewrite (packCanvas_after_planPacking _ _ Hp).
        unfold createTexture, WebGL2RenderingContext.createTexture.
        destruct (WebGL2RenderingContext.contextLost gl).
        -- intros [= <- <-]. auto.
        -- discriminate.
      * unfold packCanvas. intros [= <- <-]. auto.
    + intros [= <- <-]. split; [reflexivity|].
      destruct (planPacking_Throw_kind _ _ Hp); auto.
  - intros gl has_context images e H. unfold constructor. now rewrite H.
  - intros gl images p H. unfold constructor. now rewrite H.
Qed.

Lemma constructor_failure_leaves_context_untouched_witness :
  planPacking [img 100 50; img 5000 10] = Throw width_exceeded
  /\ constructor freshContext true [img 100 50; img 5000 10]
     = (freshContext, Throw width_exceeded).
Proof.
  assert (H : planPacking [img 100 50; img 5000 10] = Throw width_exceeded)
    by reflexivity.
  split; [exact H|].
  exact (proj1 (proj2 constructor_failure_leaves_context_untouched)
           freshContext true _ _ H).
Defined.

(** X11. A constructed atlas has an empty texture.  The construction
    uploads nothing: the canvas is offered while no texture is bound,
    which the context records as [INVALID_OPERATION], and no texture
    is left bound.  In a context where every upload went into a
    texture made earlier, no upload has gone into the atlas texture. *)
Theorem constructor_uploads_nothing
    (gl gl' : WebGL2RenderingContext.t) (has_context : bool)
    (images : list HTMLImageElement.t) (atlas : t) :
  constructor gl has_context images = (gl', Return atlas) ->
  WebGL2RenderingContext.uploads gl' = WebGL2RenderingContext.uploads gl
  /\ WebGL2RenderingContext.errors gl'
     = WebGL2RenderingContext.errors gl ++ [INVALID_OPERATION]
  /\ WebGL2RenderingContext.TEXTURE_2D_binding gl' = None
  /\ (WebGL2RenderingContext.wellFormed gl ->
      forall source,
        ~ In (_texture atlas, source) (WebGL2RenderingContext.uploads gl')).
Proof.
  unfold constructor.
  destruct (planPacking images) as [p|e]; [|discriminate].
  destruct (packCanvas p has_context images) as [c|e]; [|discriminate].
  destruct (createTexture gl None c) as [gl1 [texture|e]] eqn:Hc;
    [|discriminate].
  intros [= <- <-]. cbn [_texture].
  destruct (createTexture_Return _ _ _ _ _ Hc)
    as (_ & -> & _ & Hb & Hu & He).
  split; [exact Hu|]. split; [exact He|]. split; [exact Hb|].
  intros [Hwf _] source Hin. rewrite Hu in Hin.
  specialize (Hwf _ _ Hin). lia.
Qed.

Lemma constructor_uploads_nothing_witness :
  exists gl' atlas,
    constructor freshContext true exampleImages = (gl', Return atlas)
    /\ WebGL2RenderingContext.uploads gl' = []
    /\ WebGL2RenderingContext.errors gl' = [INVALID_OPERATION].
Proof.
  destruct (constructor freshContext true exampleImages) as [gl' [atlas|e]]
    eqn:Hc; [|discriminate Hc].
  exists gl', atlas. split; [reflexivity|].
  destruct (constructor_uploads_nothing _ _ _ _ _ Hc) as (Hu & He & _).
  split; [exact Hu | exact He].
Defined.

(* ================================================================== *)
(** ** Further properties of the frame loop                           *)
(* ================================================================== *)

Section FrameLoopCounts.

Import Game.

Context {M E : Type} (game : Game.t M E).

Local Abbreviation input := (doInputProcessing (inputManager game)).
Local Abbreviation update := (doUpdateGameState (gameStateManager game)).
Local Abbreviation render := (doRender (displayManager game)).
Local Abbreviation init := (initialize (displayManager game)).

Lemma count_app (kind : Event E -> bool) l l' :
  count kind (l ++ l') = (count kind l + count kind l')%nat.
Proof. unfold count. now rewrite filter_app, length_app. Qed.

(** The events of one call of [main]. *)
Record TickEvents (evs : list (Event E)) : Prop :=
  { tick_raf : count isRequestAnimationFrame evs = 1%nat;
    tick_input : count isDoInputProcessing evs = 1%nat;
    tick_init : count isInitialize evs = 0%nat;
    tick_update : (count isDoUpdateGameState evs <= 1)%nat;
    tick_render : (count isDoRender evs <= count isDoUpdateGameState evs)%nat;
    tick_error : (count isConsoleError evs <= 1)%nat }.

Lemma main_tick_events w :
  exists evs,
    trace (fst (main game w)) = trace w ++ evs /\ TickEvents evs.
Proof.
  destruct (input (managers w)) as [h1 [[]|e1]] eqn:H1.
  - destruct (update h1) as [h2 [[]|e2]] eqn:H2.
    + destruct (render h2) as [h3 [[]|e3]] eqn:H3.
      * rewrite (main_all_return game _ _ _ _ H1 H2 H3).
        eexists. split; [reflexivity|]. constructor; unfold count; simpl; lia.
      * rewrite (main_render_throws game _ _ _ _ _ H1 H2 H3).
        eexists. split; [reflexivity|]. constructor; unfold count; simpl; lia.
    + rewrite (main_update_throws game _ _ _ _ H1 H2).
      eexists. split; [reflexivity|]. constructor; unfold count; simpl; lia.
  - rewrite (main_input_throws game _ _ _ H1).
    eexists. split; [reflexivity|]. constructor; unfold count; simpl; lia.
Qed.

Lemma initialised_events w0 :
  callbacks (initialised game w0) = callbacks w0
  /\ exists evs,
       trace (initialised game w0) = trace w0 ++ evs
       /\ count isInitialize evs = 1%nat
       /\ count isRequestAnimationFrame evs = 0%nat
       /\ count isDoInputProcessing evs = 0%nat
       /\ count isDoUpdateGameState evs = 0%nat
       /\ count isDoRender evs = 0%nat
       /\ (count isConsoleError evs <= 1)%nat.
Proof.
  unfold initialised. destruct (init (managers w0)) as [h [[]|e]];
    cbn [callbacks trace]; (split; [reflexivity|]).
  - exists [Initialize]. unfold count. simpl. repeat split; lia.
  - exists [Initialize; ConsoleError e]. rewrite <- app_assoc.
    unfold count. simpl. repeat split; lia.
Qed.

(** X12. [start()] returns whatever [initialize()] and the phases of
    the first tick do, and queues [main] once.  When [initialize()]
    returns, nothing is logged for it: the first tick follows at
    once. *)
Theorem start_always_returns (w0 : World M E) :
  exists w1,
    start game w0 = (w1, Return tt)
    /\ callbacks w1 = callbacks w0 ++ [main_closure]
    /\ (forall h, init (managers w0) = (h, Return tt) ->
          exists rest,
            trace w1 = trace w0
                       ++ [Initialize; RequestAnimationFrame;
                           DoInputProcessing] ++ rest
            /\ count isInitialize rest = 0%nat
            /\ count isRequestAnimationFrame rest = 0%nat).
Proof.
  destruct (start_running game w0) as [Hr Hc].
  exists (fst (start game w0)). split; [|split].
  - destruct (start game w0) as [x r]. simpl in *. now subst r.
  - exact Hc.
  - intros h Hinit. rewrite start_unfold.
    assert (Hi : initialised game w0
                 = {| managers := h; callbacks := callbacks w0;
                      trace := trace w0 ++ [Initialize] |}).
    { unfold initialised. now rewrite Hinit. }
    rewrite Hi.
    match goal with |- context [main game ?x] => set (w := x) end.
    destruct (input (managers w)) as [h1 [[]|e1]] eqn:H1.
    + destruct (update h1) as [h2 [[]|e2]] eqn:H2.
      * destruct (render h2) as [h3 [[]|e3]] eqn:H3.
        -- rewrite (main_all_return game _ _ _ _ H1 H2 H3).
           cbn [fst trace w]. rewrite <- app_assoc.
           eexists. split; [reflexivity|]. unfold count. simpl. auto.
        -- rewrite (main_render_throws game _ _ _ _ _ H1 H2 H3).
           cbn [fst trace w]. rewrite <- app_assoc.
           eexists. split; [reflexivity|]. unfold count. simpl. auto.
      * rewrite (main_update_throws game _ _ _ _ H1 H2).
        cbn [fst trace w]. rewrite <- app_assoc.
        eexists. split; [reflexivity|]. unfold count. simpl. auto.
    + rewrite (main_input_throws game _ _ _ H1).
      cbn [fst trace w]. rewrite <- app_assoc.
      eexists. split; [reflexivity|]. unfold count. simpl. auto.
Qed.

(** X13. Started once from an empty callback list, after [n] display
    refreshes the loop has entered [initialize()] once, requested an
    animation frame [n + 1] times and entered input processing [n + 1]
    times, once per tick; it has entered the state update at most once
    per tick and rendering never more often than the state update; and
    it has logged at most one error per tick, and one for
    [initialize()]. *)
Theorem frame_loop_runs_each_phase_at_most_once_per_tick
    (w0 : World M E) (n : nat) :
  callbacks w0 = [] ->
  exists evs,
    trace (afterTicks game n w0) = trace w0 ++ evs
    /\ count isInitialize evs = 1%nat
    /\ count isRequestAnimationFrame evs = S n
    /\ count isDoInputProcessing evs = S n
    /\ (count isDoUpdateGameState evs <= S n)%nat
    /\ (count isDoRender evs <= count isDoUpdateGameState evs)%nat
    /\ (count isConsoleError evs <= S (S n))%nat.
Proof.
  intros H0. induction n as [|n IH].
  - change (afterTicks game 0 w0) with (fst (start game w0)).
    rewrite start_unfold.
    destruct (initialised_events w0)
      as (_ & evs0 & Ht0 & Hi & Hr & Hin & Hu & Hre & Her).
    destruct (main_tick_events (initialised game w0)) as (evs & Ht & T).
    destruct T.
    exists (evs0 ++ evs). rewrite Ht, Ht0, <- app_assoc.
    split; [reflexivity|]. rewrite !count_app. repeat split; lia.
  - destruct IH as (evs0 & Ht0 & Hi & Hr & Hin & Hu & Hre & Her).
    change (afterTicks game (S n) w0)
      with (animationFrame game (afterTicks game n w0)).
    rewrite (animationFrame_running game _ (afterTicks_running game n w0 H0)).
    destruct (main_tick_events (refreshed (afterTicks game n w0)))
      as (evs & Ht & T).
    destruct T. cbn [refreshed trace] in Ht.
    exists (evs0 ++ evs). rewrite Ht, Ht0, <- app_assoc.
    split; [reflexivity|]. rewrite !count_app. repeat split; lia.
Qed.

End FrameLoopCounts.

Lemma frame_loop_runs_each_phase_at_most_once_per_tick_witness :
  Game.callbacks Game.sampleWorld = []
  /\ exists evs,
       Game.trace (Game.afterTicks Game.sampleGame 3 Game.sampleWorld)
         = Game.trace Game.sampleWorld ++ evs
       /\ Game.count Game.isInitialize evs = 1%nat
       /\ Game.count Game.isRequestAnimationFrame evs = 4%nat
       /\ Game.count Game.isDoInputProcessing evs = 4%nat
       /\ (Game.count Game.isDoUpdateGameState evs <= 4)%nat
       /\ (Game.count Game.isDoRender evs <= Game.count Game.isDoUpdateGameState evs)%nat
       /\ (Game.count Game.isConsoleError evs <= 5)%nat.
Proof.
  split; [reflexivity|].
  exact (frame_loop_runs_each_phase_at_most_once_per_tick
           Game.sampleGame Game.sampleWorld 3 eq_refl).
Defined.


Lemma start_always_returns_witness :
  initialize (Game.displayManager Game.quietGame)
    (Game.managers Game.sampleWorld) = (0%nat, Return tt)
  /\ exists w1 rest,
       Game.start Game.quietGame Game.sampleWorld = (w1, Return tt)
       /\ Game.trace w1
          = Game.trace Game.sampleWorld
            ++ [Initialize; RequestAnimationFrame; DoInputProcessing] ++ rest.
Proof.
  split; [reflexivity|].
  destruct (start_always_returns Game.quietGame Game.sampleWorld)
    as (w1 & Hs & _ & Ht).
  destruct (Ht 0%nat eq_refl) as (rest & Hrest & _).
  exists w1, rest. split; [exact Hs | exact Hrest].
Defined.

Section FrameLoopQueue.

Import Game.

Context {M E : Type} (game : Game.t M E).

(** Running a list of queued callbacks: each one is a tick, and each
    queues [main] again. *)
Lemma run_callbacks cbs : forall w : World M E,
  exists evs,
    trace (fold_left (fun w' cb => fst (runCallback game cb w')) cbs w)
    = trace w ++ evs
    /\ count isDoInputProcessing evs = length cbs
    /\ count isRequestAnimationFrame evs = length cbs
    /\ callbacks (fold_left (fun w' cb => fst (runCallback game cb w')) cbs w)
       = callbacks w ++ cbs.
Proof.
  induction cbs as [|cb cbs IH]; intros w.
  - exists []. simpl. now rewrite !app_nil_r.
  - destruct cb. cbn [fold_left runCallback].
    destruct (main_tick_events game w) as (evs1 & Ht1 & T). destruct T.
    destruct (main_returns game w) as [_ Hc1].
    destruct (IH (fst (main game w))) as (evs & Ht & Hi & Hr & Hc).
    exists (evs1 ++ evs). rewrite Ht, Ht1, Hc, Hc1, <- !app_assoc.
    rewrite !count_app. simpl. repeat split; lia.
Qed.

(** X14. A display refresh runs one tick for every queued callback
    and leaves the same callbacks queued; and every call of [start()]
    queues one more.  So the loop never dies out, and [start()] called
    twice runs two ticks at every refresh: nothing in [start()] guards
    against a second call. *)
Theorem refresh_runs_one_tick_per_queued_callback :
  (forall w : World M E,
      callbacks (animationFrame game w) = callbacks w
      /\ exists evs,
           trace (animationFrame game w) = trace w ++ evs
           /\ count isDoInputProcessing evs = length (callbacks w)
           /\ count isRequestAnimationFrame evs = length (callbacks w))
  /\ (forall w0 : World M E,
         callbacks (fst (start game (fst (start game w0))))
         = callbacks w0 ++ [main_closure; main_closure]).
Proof.
  split.
  - intros w. unfold animationFrame.
    destruct (run_callbacks (callbacks w) (refreshed w))
      as (evs & Ht & Hi & Hr & Hc).
    split; [exact Hc|]. exists evs. auto.
  - intros w0. rewrite (proj2 (start_running game _)).
    rewrite (proj2 (start_running game _)), <- app_assoc. reflexivity.
Qed.

End FrameLoopQueue.

(* ================================================================== *)
(** ** The earlier revision of [Game.start]                           *)
(* ================================================================== *)

Section EarlierFrameLoop.

Import Game.

Context {M E : Type} (game : Game0.t M E).

Lemma main0_queues w :
  callbacks (fst (Game0.main game w)) = callbacks w ++ [main_closure].
Proof.
  unfold Game0.main, bind, requestAnimationFrame, invoke.
  cbn [managers callbacks trace].
  now destruct (doRender (Game0.displayManager game) (managers w)).
Qed.

Lemma run_callbacks0 cbs : forall w : World M E,
  callbacks (fold_left (fun w' cb => fst (Game0.runCallback game cb w')) cbs w)
  = callbacks w ++ cbs.
Proof.
  induction cbs as [|cb cbs IH]; intros w.
  - simpl. now rewrite app_nil_r.
  - destruct cb. cbn [fold_left Game0.runCallback].
    now rewrite IH, main0_queues, <- app_assoc.
Qed.

(** X15. In the earlier revision nothing catches what [doRender()]
    throws: [start()] throws it on, and nothing is logged.  [main] was
    queued before rendering was entered, though, and every display
    refresh leaves the queued callbacks queued, so the loop goes on. *)
Theorem earlier_start_throws_what_render_throws
    (w : World M E) (h : M) (e : E) :
  doRender (Game0.displayManager game) (managers w) = (h, Throw e) ->
  Game0.start game w
  = ({| managers := h;
        callbacks := callbacks w ++ [main_closure];
        trace := trace w ++ [RequestAnimationFrame; DoRender] |}, Throw e)
  /\ forall w' : World M E,
       callbacks (Game0.animationFrame game w') = callbacks w'.
Proof.
  intros H. split.
  - unfold Game0.start, Game0.main, bind, requestAnimationFrame, invoke.
    cbn [managers callbacks trace]. rewrite H.
    now rewrite <- app_assoc.
  - intros w'. unfold Game0.animationFrame. now rewrite run_callbacks0.
Qed.

End EarlierFrameLoop.

Lemma earlier_start_throws_what_render_throws_witness :
  doRender (Game0.displayManager Game0.failingGame)
    (Game.managers Game.sampleWorld) = (0%nat, Throw "no context"%string)
  /\ Game0.start Game0.failingGame Game.sampleWorld
     = ({| Game.managers := 0%nat;
           Game.callbacks := [main_closure];
           Game.trace := [RequestAnimationFrame; DoRender] |},
        Throw "no context"%string).
Proof.
  split; [reflexivity|].
  exact (proj1 (earlier_start_throws_what_render_throws
                  Game0.failingGame Game.sampleWorld 0%nat
                  "no context"%string eq_refl)).
Defined.

Lemma planPacking_returns_iff_witness :
  Forall (fun image => HTMLImageElement.width image <= MAX_DIMENSION)
    exampleImages
  /\ totalPackedHeight exampleImages <= MAX_DIMENSION
  /\ exists p, planPacking exampleImages = Return p.
Proof.
  assert (H1 : Forall (fun image =>
                         HTMLImageElement.width image <= MAX_DIMENSION)
                 exampleImages)
    by (repeat constructor; vm_compute; discriminate).
  assert (H2 : totalPackedHeight exampleImages <= MAX_DIMENSION)
    by (vm_compute; discriminate).
  split; [exact H1|]. split; [exact H2|].
  exact (proj2 (planPacking_returns_iff exampleImages) (conj H1 H2)).
Defined.

Lemma constructor_returns_iff_witness :
  (exists p, planPacking exampleImages = Return p)
  /\ WebGL2RenderingContext.contextLost freshContext = false
  /\ exists gl' atlas,
       constructor freshContext true exampleImages = (gl', Return atlas).
Proof.
  assert (H1 : exists p, planPacking exampleImages = Return p)
    by (eexists; reflexivity).
  split; [exact H1|]. split; [reflexivity|].
  exact (proj2 (proj1 (constructor_returns_iff freshContext true
                         exampleImages))
           (conj H1 (conj eq_refl eq_refl))).
Defined.
